(** * BetEnderFork: the DEX price aggregator's freshness engine

    A shallow embedding of the TypeScript sources
    - [server/routes.ts] (the snapshot route and [SnapshotService]),
    - [server/application/services/TokenDiscoveryManager.ts],
    - [PoolScheduler] (tiered refresh scheduling),
    - [EthersAdapter] (pool data over Multicall3 and Etherscan),
    - [client/src/hooks/use-snapshots.ts] and [client/src/pages/Dashboard.tsx],
    and the properties the specification states about them, followed by
    further properties of the same sources.

    Conventions of the embedding.
    - JavaScript [number]s that hold counts, indices, block numbers and
      millisecond timestamps are integers ([Z]); prices and liquidity are
      IEEE binary64 values ([float]), as in JavaScript.
    - [Map]s and plain objects used as dictionaries are [gmap]s; a [Set] is a
      [gset]; arrays are lists.
    - [console.log] and friends are dropped together with their arguments.
    - Collaborators whose sources are not part of the repository extract
      (the pricing library, the chain adapter used by discovery, the pool
      controller, the multicall engine) are interfaces: type classes or
      explicit arguments. *)

From Stdlib Require Import ZArith String Ascii List Bool Lia Floats.
From Stdlib Require Import DecimalString DecimalPos Uint63.
From stdpp Require Import gmap strings list fin_maps.

Local Open Scope string_scope.
Local Open Scope Z_scope.

(* 0.15 is read as the nearest binary64 value, as JavaScript reads it. *)
Set Warnings "-inexact-float".
(* set_solver clears hypotheses that are not always there. *)
Set Warnings "-clear-no-such-hyp".

(** ** JavaScript primitives used by the sources *)

Module JS.

(** [String.prototype.toLowerCase], on the ASCII range (addresses and chain
    names are ASCII). *)
Definition lowerAscii (c : ascii) : ascii :=
  let n := nat_of_ascii c in
  if ((65 <=? n) && (n <=? 90))%nat then ascii_of_nat (n + 32) else c.

Fixpoint toLowerCase (s : string) : string :=
  match s with
  | EmptyString => EmptyString
  | String c r => String (lowerAscii c) (toLowerCase r)
  end.

(** White space skipped by [parseInt] (ASCII part of StrWhiteSpaceChar). *)
Definition isWhiteSpace (c : ascii) : bool :=
  let n := nat_of_ascii c in
  ((9 <=? n) && (n <=? 13) || (n =? 32))%nat.

Fixpoint trimStart (s : string) : string :=
  match s with
  | String c r => if isWhiteSpace c then trimStart r else s
  | EmptyString => EmptyString
  end.

(** Value of a character as a digit, for radixes up to 36. *)
Definition digitValue (c : ascii) : option Z :=
  let n := Z.of_nat (nat_of_ascii c) in
  if (48 <=? n) && (n <=? 57) then Some (n - 48)
  else if (97 <=? n) && (n <=? 122) then Some (n - 87)
  else if (65 <=? n) && (n <=? 90) then Some (n - 55)
  else None.

(** The longest prefix of radix-[R] digits, most significant first. *)
Fixpoint leadingDigits (R : Z) (s : string) : list Z :=
  match s with
  | EmptyString => []
  | String c r =>
      match digitValue c with
      | Some d => if d <? R then d :: leadingDigits R r else []
      | None => []
      end
  end.

Definition digitsValue (R : Z) (ds : list Z) : Z :=
  fold_left (fun acc d => acc * R + d) ds 0.

(** [parseInt(string)] without a radix argument.  [None] is [NaN]; the
    argument [None] is [undefined], whose string form has no digit.  The
    result is the mathematical integer (no rounding to binary64, which only
    differs above 2^53). *)
Definition parseInt (arg : option string) : option Z :=
  match arg with
  | None => None
  | Some input =>
      let S0 := trimStart input in
      let '(sign, S1) :=
        match S0 with
        | String "-" r => (-1, r)
        | String "+" r => (1, r)
        | _ => (1, S0)
        end in
      let '(R, S2) :=
        match S1 with
        | String "0" (String "x" r) => (16, r)
        | String "0" (String "X" r) => (16, r)
        | _ => (10, S1)
        end in
      match leadingDigits R S2 with
      | [] => None
      | ds => Some (sign * digitsValue R ds)
      end
  end.

(** [x || d] on numbers: [NaN] and [0] are falsy. *)
Definition orDefault (x : option Z) (d : Z) : Z :=
  match x with
  | Some n => if n =? 0 then d else n
  | None => d
  end.

(** Truthiness of a [number | undefined]. *)
Definition truthyNumber (x : option Z) : bool :=
  match x with
  | Some n => negb (n =? 0)
  | None => false
  end.

(** Truthiness of a [string | null]. *)
Definition truthyString (x : option string) : bool :=
  match x with
  | Some EmptyString => false
  | Some _ => true
  | None => false
  end.

(** [Array.prototype.slice(start, end)] for integer arguments: negative
    indices count from the end, everything is clamped to the array. *)
Definition relativeIndex (len i : Z) : Z :=
  if i <? 0 then Z.max (len + i) 0 else Z.min i len.

Definition slice {A} (l : list A) (start end_ : Z) : list A :=
  let len := Z.of_nat (length l) in
  let k := relativeIndex len start in
  let final := relativeIndex len end_ in
  take (Z.to_nat (final - k)) (drop (Z.to_nat k) l).

End JS.

(** ** The snapshot endpoint: [server/routes.ts] and [SnapshotService] *)

Module Snapshot.
Import JS.

(** [TokenMetadata] (shared/tokens) and [Token] (domain/entities) carry the
    same fields as far as the service reads them. *)
Record Token := {
  address : string;
  symbol : string;
  name : string;
  decimals : Z;
  logoURI : option string;
}.

Abbreviation TokenMetadata := Token.

(** [Pool] (domain/entities), with the fields the adapters fill in. *)
Record Pool := {
  pool_address : string;
  token0 : Token;
  token1 : Token;
  reserve0 : Z;
  reserve1 : Z;
  feeTier : option Z;
}.

Record SnapshotEntry := {
  token : Token;
  priceUSD : float;
  liquidityUSD : float;
  volumeUSD : float;
  marketCapUSD : float;
}.

Record ChainSnapshot := {
  snapshot_timestamp : Z;
  chain : string;
  entries : list SnapshotEntry;
}.

(** A value of the service's [cache] map: [{ timestamp, entry }]. *)
Record Cached := {
  timestamp : Z;
  entry : SnapshotEntry;
}.

(** [IChainAdapter], as far as [generateSnapshot] calls it.  [getTopPools]
    is taken to answer the same list throughout one request. *)
Record IChainAdapter := {
  getChainName : string;
  getTopPools : Z -> list Pool;
  getStableTokenAddress : string;
}.

(** domain/pricing is not among the sources: its two functions are an
    interface. *)
Class Pricing := {
  computeSpotPrice : Pool -> string -> string -> float;
  computeLiquidityUSD : Pool -> float -> float -> float;
}.

(** shared/tokens is not among the sources: the static table is an
    interface. *)
Class StaticTokens := {
  SUPPORTED_TOKENS : gmap string (list TokenMetadata);
}.

Record SnapshotService := {
  adapters : gmap string IChainAdapter;
  cache : gmap string Cached;
  dynamicTokens : gmap string (list TokenMetadata);
}.

Inductive Thrown := Error (message : string).

Inductive Body :=
| SnapshotBody (s : ChainSnapshot)
| MessageBody (message : string).

Record Response := {
  status : Z;
  body : Body;
}.

(** The parts of an Express request the handler reads. *)
Record Request := {
  params_chain : string;
  query_offset : option string;
  query_limit : option string;
}.

(** [String.prototype.includes]. *)
Fixpoint includes (s sub : string) : bool :=
  String.prefix sub s ||
  match s with
  | EmptyString => false
  | String _ r => includes r sub
  end.

Section Service.
Context `{Pricing} `{StaticTokens}.

(** [new MockAdapter(chainName)]: throws (here [None]) when the chain has no
    static token, since the stable token is read off the table. *)
Definition MockAdapter (chainName : string) : option IChainAdapter :=
  let chainName := toLowerCase chainName in
  let metadata := default [] (SUPPORTED_TOKENS !! chainName) in
  let stableMeta :=
    match List.find (fun t => String.eqb (symbol t) "USDC") metadata with
    | Some t => Some t
    | None => head metadata
    end in
  match stableMeta with
  | Some stableMeta =>
      Some {| getChainName := chainName;
              getTopPools := fun _ => [];
              getStableTokenAddress := address stableMeta |}
  | None => None
  end.

(** [new SnapshotService(adapters)], before any token list has arrived. *)
Definition newSnapshotService (l : list IChainAdapter) : SnapshotService :=
  {| adapters :=
       fold_left (fun m a => <[toLowerCase (getChainName a) := a]> m) l ∅;
     cache := ∅;
     dynamicTokens := ∅ |}.

(** [refreshDynamicTokens], given what the two fetches answered ([None]:
    the response was not ok). *)
Definition refreshDynamicTokens (eth poly : option (list TokenMetadata))
    (svc : SnapshotService) : SnapshotService :=
  let d := dynamicTokens svc in
  let d := match eth with Some l => <["ethereum" := l]> d | None => d end in
  let d := match poly with Some l => <["polygon" := l]> d | None => d end in
  {| adapters := adapters svc; cache := cache svc; dynamicTokens := d |}.

(** "Merge static and dynamic tokens" / "De-duplicate by address". *)
Definition allMetadata (staticMeta dynamicMeta : list TokenMetadata)
    : list TokenMetadata :=
  let seen : gset string :=
    list_to_set (map (fun t => toLowerCase (address t)) staticMeta) in
  (staticMeta ++
   filter (fun t => toLowerCase (address t) ∉ seen) dynamicMeta)%list.

Definition cacheKey (chainKey : string) (meta : TokenMetadata) : string :=
  chainKey ++ ":" ++ toLowerCase (address meta).

(** [cached && (now - cached.timestamp < 10000)] *)
Definition freshCached (c : gmap string Cached) (now : Z) (key : string)
    : option SnapshotEntry :=
  match c !! key with
  | Some cached =>
      if now - timestamp cached <? 10000 then Some (entry cached) else None
  | None => None
  end.

(** [pools.find(p => ...)]: the first pool one of whose tokens is [meta]. *)
Definition hasToken (meta : TokenMetadata) (p : Pool) : bool :=
  String.eqb (toLowerCase (address (token0 p))) (toLowerCase (address meta))
  || String.eqb (toLowerCase (address (token1 p))) (toLowerCase (address meta)).

Definition findPool (pools : list Pool) (meta : TokenMetadata) : option Pool :=
  List.find (hasToken meta) pools.

(** The price and liquidity of the "fresh" path. *)
Definition priceAndLiquidity (adapter : IChainAdapter) (meta : TokenMetadata)
    : float * float :=
  let pools := getTopPools adapter 100 in
  let pool := findPool pools meta in
  let stableAddress := getStableTokenAddress adapter in
  match pool with
  | Some pool =>
      let isToken0Stable :=
        String.eqb (toLowerCase (address (token0 pool)))
                   (toLowerCase stableAddress) in
      let targetToken := if isToken0Stable then token1 pool else token0 pool in
      let price := computeSpotPrice pool (address targetToken) stableAddress in
      let liquidity :=
        computeLiquidityUSD pool
          (if isToken0Stable then 1%float else price)
          (if isToken0Stable then price else 1%float) in
      (price, liquidity)
  | None => (1%float, 500000%float)
  end.

Definition freshEntry (adapter : IChainAdapter) (meta : TokenMetadata)
    : SnapshotEntry :=
  let '(price, liquidity) := priceAndLiquidity adapter meta in
  {| token := {| symbol := symbol meta;
                 name := name meta;
                 address := address meta;
                 decimals := decimals meta;
                 logoURI := logoURI meta |};
     priceUSD := price;
     liquidityUSD := liquidity;
     volumeUSD := (liquidity * 0.15)%float;
     marketCapUSD := (price * 10000000)%float |}.

(** One callback of [windowedMetadata.map(async (meta) => ...)].  Every
    callback reads the cache before its first [await], hence before any
    callback writes it: all reads see the cache of the start of the request. *)
Definition entryFor (c : gmap string Cached) (now : Z) (chainKey : string)
    (adapter : IChainAdapter) (meta : TokenMetadata) : SnapshotEntry :=
  match freshCached c now (cacheKey chainKey meta) with
  | Some e => e
  | None => freshEntry adapter meta
  end.

(** The [cache.set] of one callback (none on the cached path). *)
Definition storeEntry (c0 : gmap string Cached) (now : Z) (chainKey : string)
    (adapter : IChainAdapter) (c : gmap string Cached) (meta : TokenMetadata)
    : gmap string Cached :=
  match freshCached c0 now (cacheKey chainKey meta) with
  | Some _ => c
  | None =>
      <[cacheKey chainKey meta :=
          {| timestamp := now; entry := freshEntry adapter meta |}]> c
  end.

Definition windowedMetadata (svc : SnapshotService) (chainKey : string)
    (offset limit : Z) : list TokenMetadata :=
  let staticMeta := default [] (SUPPORTED_TOKENS !! chainKey) in
  let dynamicMeta := default [] (dynamicTokens svc !! chainKey) in
  slice (allMetadata staticMeta dynamicMeta) offset (offset + limit).

(** [generateSnapshot(chain, offset, limit)] at time [now = Date.now()]. *)
Definition generateSnapshot (svc : SnapshotService) (now : Z)
    (chain_ : string) (offset limit : Z)
    : Thrown + ChainSnapshot * SnapshotService :=
  let chainKey := toLowerCase chain_ in
  match adapters svc !! chainKey with
  | None => inl (Error ("No adapter found for chain: " ++ chain_))
  | Some adapter =>
      let windowed := windowedMetadata svc chainKey offset limit in
      let entries :=
        map (entryFor (cache svc) now chainKey adapter) windowed in
      let cache' :=
        fold_left (storeEntry (cache svc) now chainKey adapter)
                  windowed (cache svc) in
      inr ({| snapshot_timestamp := now;
              chain := getChainName adapter;
              entries := entries |},
           {| adapters := adapters svc;
              cache := cache';
              dynamicTokens := dynamicTokens svc |})
  end.

(** The query parameters as the handler reads them. *)
Definition parseOffset (req : Request) : Z :=
  orDefault (parseInt (query_offset req)) 0.

Definition parseLimit (req : Request) : Z :=
  orDefault (parseInt (query_limit req)) 25.

(** The handler of [GET /api/snapshots/:chain]. *)
Definition getLatest (svc : SnapshotService) (now : Z) (req : Request)
    : Response * SnapshotService :=
  let chain_ := params_chain req in
  let offset := parseOffset req in
  let limit := parseLimit req in
  match generateSnapshot svc now chain_ offset limit with
  | inr (snapshot, svc') =>
      ({| status := 200; body := SnapshotBody snapshot |}, svc')
  | inl (Error message) =>
      if includes message "No adapter"
      then ({| status := 404; body := MessageBody "Chain not supported" |}, svc)
      else ({| status := 500; body := MessageBody "Internal server error" |}, svc)
  end.

(** [registerRoutes]: one mock adapter per chain, one service. *)
Definition registerRoutes : option SnapshotService :=
  match MockAdapter "ethereum", MockAdapter "polygon" with
  | Some ethereumAdapter, Some polygonAdapter =>
      Some (newSnapshotService [ethereumAdapter; polygonAdapter])
  | _, _ => None
  end.

(** What reaches the service over its life: requests, and answers to the
    token-list fetches. *)
Inductive Event :=
| Get (now : Z) (req : Request)
| Refreshed (eth poly : option (list TokenMetadata)).

Definition step (svc : SnapshotService) (ev : Event) : SnapshotService :=
  match ev with
  | Get now req => snd (getLatest svc now req)
  | Refreshed eth poly => refreshDynamicTokens eth poly svc
  end.

End Service.

(** *** The selection rule of the specification, for comparison

    "pick the route with highest pool weight, break ties by lowest pool
    address (lowercase)", with "weight is 1 for v2 and 2 for v3" and a fee
    tier "present iff dexType = v3". *)
Definition spec_weight (p : Pool) : Z :=
  if truthyNumber (feeTier p) then 2 else 1.

Definition spec_better (p q : Pool) : bool :=
  (spec_weight q <? spec_weight p)
  || ((spec_weight p =? spec_weight q)
      && String.ltb (toLowerCase (pool_address p))
                    (toLowerCase (pool_address q))).

Definition spec_pickPool (pools : list Pool) (meta : TokenMetadata)
    : option Pool :=
  fold_left
    (fun best p =>
       match best with
       | None => Some p
       | Some b => if spec_better p b then Some p else Some b
       end)
    (List.filter (hasToken meta) pools) None.

(** The key tokens are compared by. *)
Definition keyOf (t : TokenMetadata) : string := toLowerCase (address t).

(** The merged list as the specification words it: static then dynamic,
    keeping the first occurrence of every lowercase address. *)
Fixpoint spec_dedup (seen : gset string) (l : list TokenMetadata)
    : list TokenMetadata :=
  match l with
  | [] => []
  | t :: r =>
      let k := keyOf t in
      if decide (k ∈ seen) then spec_dedup seen r
      else t :: spec_dedup ({[k]} ∪ seen) r
  end.

Definition spec_merged (staticMeta dynamicMeta : list TokenMetadata)
    : list TokenMetadata :=
  spec_dedup ∅ (staticMeta ++ dynamicMeta)%list.

(** The synthetic figures of the fallback. *)
Definition synthetic (e : SnapshotEntry) : Prop :=
  priceUSD e = 1%float /\ liquidityUSD e = 500000%float.

(** Every adapter lists no pool, and every cached entry is synthetic. *)
Definition coldInvariant (svc : SnapshotService) : Prop :=
  (forall k a, adapters svc !! k = Some a -> forall n, getTopPools a n = [])
  /\ (forall k c, cache svc !! k = Some c -> synthetic (entry c)).

(** [getLatestSnapshot(chain)].  Its declared answer is a [ChainSnapshot];
    what the [cache] map holds are the [{ timestamp, entry }] values that
    [generateSnapshot] stores. *)
Definition getLatestSnapshot (svc : SnapshotService) (chain_ : string)
    : option Cached :=
  cache svc !! toLowerCase chain_.

(** The merged token list of a chain. *)
Definition mergedList `{StaticTokens} (svc : SnapshotService)
    (chainKey : string) : list TokenMetadata :=
  allMetadata (default [] (SUPPORTED_TOKENS !! chainKey))
              (default [] (dynamicTokens svc !! chainKey)).

(** The two derived figures of an entry follow from its price and
    liquidity. *)
Definition derivedOk (e : SnapshotEntry) : Prop :=
  volumeUSD e = (liquidityUSD e * 0.15)%float
  /\ marketCapUSD e = (priceUSD e * 10000000)%float.

End Snapshot.

(** ** On-demand pool discovery: [TokenDiscoveryManager] *)

Module Discovery.
Import JS.

(** [Token] (domain/entities) as discovery builds it. *)
Record Token := {
  address : string;
  symbol : string;
  name : string;
  decimals : Z;
  chainId : option Z;
}.

(** What discovery reads of a pool state. *)
Record PoolState := {
  state_token0 : string;
  state_token1 : string;
}.

Inductive DexType := v2 | v3.

Record PoolMetadata := {
  pool_address : string;
  dexType : DexType;
  token0 : string;
  token1 : string;
  feeTier : option Z;
  weight : Z;
}.

Record PricingRoute := {
  pool : string;
  base : string;
}.

Record PoolRegistry := {
  pools : gmap string PoolMetadata;
  pricingRoutes : gmap string (list PricingRoute);
}.

Record DiscoveryAttempt := {
  tokenAddress : string;
  attempt_chainId : Z;
  attemptedAt : Z;
  poolsFound : Z;
  succeeded : bool;
}.

(** A call that returns or throws. *)
Inductive Completion (A : Type) :=
| Return (a : A)
| Throw.
Arguments Return {A} a.
Arguments Throw {A}.

(** The requests discovery sends to the chain. *)
Inductive RpcCall :=
| GetPoolAddress (tokenA tokenB : Token) (chainId fee : Z)
| GetPoolState (poolAddress : string) (chainId : Z).

(** The [EthersAdapter] methods discovery calls are not among the sources.
    An answer may depend on the request and on every request before it;
    [getPoolAddress] answers an address or [null]. *)
Class EthersAdapter := {
  getPoolAddress :
    list RpcCall -> Token -> Token -> Z -> Z -> Completion (option string);
  getPoolState : list RpcCall -> string -> Z -> Completion PoolState;
}.

(** [Date.now()]: the k-th reading of the clock. *)
Class Clock := {
  Date_now : nat -> Z;
}.

(** The manager's field, the storage behind [StorageService], and the
    history of the outside world. *)
Record World := {
  discoveryAttempts : gmap string DiscoveryAttempt;
  storage : gmap Z PoolRegistry;
  clockReads : nat;
  rpcLog : list RpcCall;
}.

Definition DISCOVERY_RETRY_WINDOW : Z := 5 * 60 * 1000.
Definition FEE_TIERS : list Z := [100; 500; 3000; 10000].
Definition BASE_TOKENS : gmap Z (list string) :=
  <[1 := ["0xa0b86991c6218b36c1d19d4a2e9eb0ce3606eb48";
          "0xdac17f958d2ee523a2206206994597c13d831ec7";
          "0x6b175474e89094c44da98b954eedeac495271d0f";
          "0xc02aaa39b223fe8d0a0e5c4f27ead9083c756cc2"]]>
  (<[137 := ["0x2791bca1f2de4661ed88a30c99a7a9449aa84174";
             "0xc2132d05d31c914a87c6611c10748aeb04b58e8f";
             "0x8f3cf7ad23cd3cadbd9735aff958023d60d76ee6";
             "0x7ceb23fd6bc0add59e62ac25578270cff1b9f619";
             "0x0d500b1d8e8ef31e21c99d1db9a6444d3adf1270"]]> ∅).

(** A number inside a template string. *)
Definition toString (n : Z) : string := NilZero.string_of_int (Z.to_int n).

Definition attemptKey (token : Token) (chainId : Z) : string :=
  toLowerCase (address token) ++ "-" ++ toString chainId.

Definition emptyRegistry : PoolRegistry :=
  {| pools := ∅; pricingRoutes := ∅ |}.

(** [a || b] on strings. *)
Definition orString (a b : string) : string :=
  match a with EmptyString => b | _ => a end.

(** [registry.pricingRoutes[key].push(route)] *)
Definition push (key : string) (route : PricingRoute)
    (routes : gmap string (list PricingRoute)) : gmap string (list PricingRoute) :=
  alter (fun l => (l ++ [route])%list) key routes.

(** [if (!registry.pricingRoutes[key]) registry.pricingRoutes[key] = []] *)
Definition ensure (key : string)
    (routes : gmap string (list PricingRoute)) : gmap string (list PricingRoute) :=
  match routes !! key with
  | Some _ => routes
  | None => <[key := []]> routes
  end.

Definition addPoolToRegistry (registry : PoolRegistry) (poolAddress : string)
    (poolState : PoolState) (fee : option Z) : PoolRegistry :=
  let token0 := state_token0 poolState in
  let token1 := state_token1 poolState in
  let dexType := if truthyNumber fee then v3 else v2 in
  let weight := match dexType with v3 => 2 | v2 => 1 end in
  let poolMetadata :=
    {| pool_address := poolAddress;
       dexType := dexType;
       token0 := token0;
       token1 := token1;
       feeTier := fee;
       weight := weight |} in
  let pools' := <[poolAddress := poolMetadata]> (pools registry) in
  let token0Lower := toLowerCase token0 in
  let token1Lower := toLowerCase token1 in
  let routes := ensure token0Lower (pricingRoutes registry) in
  let routes := ensure token1Lower routes in
  let routes := push token0Lower {| pool := poolAddress; base := token1 |} routes in
  let routes := push token1Lower {| pool := poolAddress; base := token0 |} routes in
  {| pools := pools'; pricingRoutes := routes |}.

(** *** Effects: a state monad over [World] *)

Definition M (A : Type) : Type := World -> A * World.

Definition ret {A} (a : A) : M A := fun w => (a, w).

Definition bind {A B} (m : M A) (k : A -> M B) : M B :=
  fun w => let '(a, w') := m w in k a w'.

Notation "'let*' x ':=' m 'in' k" := (bind m (fun x => k))
  (at level 10, x pattern, m at level 200, k at level 200).

(** [for (const x of l) { ... }] over a loop-carried value. *)
Fixpoint forOf {A S} (l : list A) (body : A -> S -> M S) (s : S) : M S :=
  match l with
  | [] => ret s
  | x :: r => let* s' := body x s in forOf r body s'
  end.

Section Manager.
Context `{EthersAdapter} `{Clock}.

Definition now : M Z :=
  fun w =>
    (Date_now (clockReads w),
     {| discoveryAttempts := discoveryAttempts w;
        storage := storage w;
        clockReads := S (clockReads w);
        rpcLog := rpcLog w |}).

Definition logCall (c : RpcCall) : M unit :=
  fun w =>
    (tt,
     {| discoveryAttempts := discoveryAttempts w;
        storage := storage w;
        clockReads := clockReads w;
        rpcLog := (rpcLog w ++ [c])%list |}).

Definition history : M (list RpcCall) :=
  fun w => (rpcLog w, w).

Definition callGetPoolAddress (tokenA tokenB : Token) (chainId fee : Z)
    : M (Completion (option string)) :=
  let* history := history in
  let* _ := logCall (GetPoolAddress tokenA tokenB chainId fee) in
  ret (getPoolAddress history tokenA tokenB chainId fee).

Definition callGetPoolState (poolAddress : string) (chainId : Z)
    : M (Completion PoolState) :=
  let* history := history in
  let* _ := logCall (GetPoolState poolAddress chainId) in
  ret (getPoolState history poolAddress chainId).

Definition lastAttemptOf (key : string) : M (option DiscoveryAttempt) :=
  fun w => (discoveryAttempts w !! key, w).

Definition recordAttempt (key : string) (a : DiscoveryAttempt) : M unit :=
  fun w =>
    (tt,
     {| discoveryAttempts := <[key := a]> (discoveryAttempts w);
        storage := storage w;
        clockReads := clockReads w;
        rpcLog := rpcLog w |}).

(** Modelled from the spec: [StorageService.getPoolRegistry] "returns an
    empty registry if absent"; [savePoolRegistry] replaces the chain's
    registry. *)
Definition getPoolRegistry (chainId : Z) : M PoolRegistry :=
  fun w => (default emptyRegistry (storage w !! chainId), w).

Definition savePoolRegistry (chainId : Z) (registry : PoolRegistry) : M unit :=
  fun w =>
    (tt,
     {| discoveryAttempts := discoveryAttempts w;
        storage := <[chainId := registry]> (storage w);
        clockReads := clockReads w;
        rpcLog := rpcLog w |}).

(** The body of the innermost [try]: one probe.  It answers the registry
    and [1] when a pool went in, [0] otherwise.  The 100 ms pause between
    probes only lets the clock advance. *)
Definition probe (token : Token) (chainId : Z) (baseToken : string)
    (fee : Z) (registry : PoolRegistry) : M (PoolRegistry * Z) :=
  let tokenAFull :=
    {| address := address token;
       symbol := symbol token;
       name := orString (name token) (symbol token);
       decimals := decimals token;
       chainId := Some chainId |} in
  let tokenBFull :=
    {| address := baseToken;
       symbol := "BASE";
       name := "BASE";
       decimals := 18;
       chainId := Some chainId |} in
  let* r := callGetPoolAddress tokenAFull tokenBFull chainId fee in
  match r with
  | Throw => ret (registry, 0)
  | Return poolAddress =>
      match poolAddress with
      | Some poolAddress' =>
          if truthyString poolAddress then
            let* s := callGetPoolState poolAddress' chainId in
            match s with
            | Throw => ret (registry, 0)
            | Return poolState =>
                ret (addPoolToRegistry registry poolAddress' poolState (Some fee), 1)
            end
          else ret (registry, 0)
      | None => ret (registry, 0)
      end
  end.

(** The loop-carried locals of [discoverPoolsForTokens]. *)
Record Locals := {
  poolRegistry : PoolRegistry;
  poolsFoundForToken : Z;
  poolsDiscoveredThisBatch : Z;
}.

Definition probeStep (token : Token) (chainId : Z) (baseToken : string)
    (fee : Z) (l : Locals) : M Locals :=
  let* (registry, found) := probe token chainId baseToken fee (poolRegistry l) in
  ret {| poolRegistry := registry;
         poolsFoundForToken := poolsFoundForToken l + found;
         poolsDiscoveredThisBatch := poolsDiscoveredThisBatch l + found |}.

(** The part of the outer loop body after the retry-window check. *)
Definition discoverToken (token : Token) (chainId : Z) (l : Locals) : M Locals :=
  let l := {| poolRegistry := poolRegistry l;
              poolsFoundForToken := 0;
              poolsDiscoveredThisBatch := poolsDiscoveredThisBatch l |} in
  let baseTokens := default [] (BASE_TOKENS !! chainId) in
  let* l :=
    forOf baseTokens
      (fun baseToken => forOf FEE_TIERS (probeStep token chainId baseToken)) l in
  let* t := now in
  let* _ :=
    recordAttempt (attemptKey token chainId)
      {| tokenAddress := address token;
         attempt_chainId := chainId;
         attemptedAt := t;
         poolsFound := poolsFoundForToken l;
         succeeded := 0 <? poolsFoundForToken l |} in
  ret l.

(** One iteration of [for (const token of tokens)]. *)
Definition tokenStep (chainId : Z) (token : Token) (l : Locals) : M Locals :=
  let* lastAttempt := lastAttemptOf (attemptKey token chainId) in
  match lastAttempt with
  | Some lastAttempt =>
      let* t := now in
      if t - attemptedAt lastAttempt <? DISCOVERY_RETRY_WINDOW
      then ret l
      else discoverToken token chainId l
  | None => discoverToken token chainId l
  end.

Definition discoverPoolsForTokens (tokens : list Token) (chainId : Z) : M Z :=
  let* registry := getPoolRegistry chainId in
  let* l :=
    forOf tokens (tokenStep chainId)
      {| poolRegistry := registry;
         poolsFoundForToken := 0;
         poolsDiscoveredThisBatch := 0 |} in
  let* _ := savePoolRegistry chainId (poolRegistry l) in
  ret (poolsDiscoveredThisBatch l).

End Manager.

(** *** Properties of registries and runs, as predicates *)

(** "Every [PricingRoute.pool] is a key of [pools]." *)
Definition routesClosed (registry : PoolRegistry) : Prop :=
  forall tokenLower routes route,
    pricingRoutes registry !! tokenLower = Some routes ->
    route ∈ routes ->
    is_Some (pools registry !! pool route).

(** The token has a route through [poolAddress] whose base is [baseToken]. *)
Definition hasRoute (registry : PoolRegistry) (tokenLower poolAddress
    baseToken : string) : Prop :=
  exists routes,
    pricingRoutes registry !! tokenLower = Some routes
    /\ {| pool := poolAddress; base := baseToken |} ∈ routes.

(** The shape of the metadata discovery writes. *)
Definition discoveredShape (m : PoolMetadata) : Prop :=
  dexType m = v3
  /\ (exists fee, feeTier m = Some fee /\ fee ∈ FEE_TIERS)
  /\ weight m = 2.

(** A probe request carries one of the four fee tiers. *)
Definition probeFeeOk (c : RpcCall) : Prop :=
  match c with
  | GetPoolAddress _ _ _ fee => fee ∈ FEE_TIERS /\ fee <> 0
  | GetPoolState _ _ => True
  end.

(** What it means for a token to be inside the retry window at every
    clock reading from the [n]-th on. *)
Definition withinWindow `{Clock} (attempts : gmap string DiscoveryAttempt)
    (n : nat) (chainId : Z) (token : Token) : Prop :=
  exists a,
    attempts !! attemptKey token chainId = Some a
    /\ forall k, (n <= k)%nat ->
         Date_now k - attemptedAt a < DISCOVERY_RETRY_WINDOW.

(** The request asks for a pool of the token that has this attempt key. *)
Definition probesKey (key : string) (c : RpcCall) : Prop :=
  match c with
  | GetPoolAddress tokenA _ chainId _ => attemptKey tokenA chainId = key
  | GetPoolState _ _ => False
  end.

(** The history [log'] continues [log] with requests that all satisfy
    [ok]. *)
Definition continues (ok : RpcCall -> Prop) (log log' : list RpcCall) : Prop :=
  exists new, log' = (log ++ new)%list /\ Forall ok new.

(** The registry [StorageService] answers for a chain. *)
Definition storedRegistry (w : World) (chainId : Z) : PoolRegistry :=
  default emptyRegistry (storage w !! chainId).

(** [new] has every pool key of [old], and its route lists continue those
    of [old]. *)
Definition extends (old new : PoolRegistry) : Prop :=
  (forall k, is_Some (pools old !! k) -> is_Some (pools new !! k))
  /\ (forall k l,
        pricingRoutes old !! k = Some l ->
        exists l', pricingRoutes new !! k = Some (l ++ l')%list).

(** The number of requests for a pool address in a history. *)
Definition probeCount (log : list RpcCall) : nat :=
  length (List.filter
            (fun c => match c with GetPoolAddress _ _ _ _ => true
                              | GetPoolState _ _ => false end) log).

(** The counters of a run against the registry it started from: they are
    not negative, and as long as the batch counter is 0 the registry is
    the one the run started from. *)
Definition countersOk (registry0 : PoolRegistry) (l : Locals) : Prop :=
  0 <= poolsFoundForToken l
  /\ 0 <= poolsDiscoveredThisBatch l
  /\ (poolsDiscoveredThisBatch l = 0 -> poolRegistry l = registry0).

End Discovery.

(** ** Tiered refresh scheduling: [PoolScheduler] *)

Module Scheduler.
Import JS.

Inductive Tier := high | normal | low.

(** [AlivePool], with the fields of the parameter type of
    [executeForChain]. *)
Record AlivePool := {
  address : string;
  chainId : Z;
  tier : Tier;
  nextRefresh : Z;
  lastBlockSeen : Z;
  lastPrice : float;
  requestCount : Z;
  lastRequestTime : Z;
}.

Record PoolData := {
  sqrtPriceX96 : Z;
  liquidity : Z;
}.

(** One result of [MulticallEngine.executeBatches]. *)
Record MulticallResult := {
  poolAddress : string;
  success : bool;
  data : option PoolData;
  blockNumber : Z;
}.

(** What the engine and the storage do for one chain of a tick: the
    preparation ([getPoolRegistry], [createBatches]) throws, or
    [executeBatches] rejects, or it answers results. *)
Inductive EngineOutcome :=
| PrepareThrows
| ExecuteThrows
| Results (multicallResults : list MulticallResult).

(** The alive set is a store of mutable pool objects; a pool object is
    referred to by its position in the store. *)
Abbreviation AliveSet := (list AlivePool).
Abbreviation PoolRef := nat.

(** [PoolController] is not among the sources.  [getPoolsForRefresh]
    answers references into the alive set; [updatePoolTier] mutates pool
    objects in place. *)
Class PoolController := {
  getPoolsForRefresh : Z -> AliveSet -> list PoolRef;
  updatePoolTier : Z -> string -> float -> AliveSet -> AliveSet;
}.

(** [MulticallEngine] and [StorageService] are not among the sources:
    what they do for the pools due on a chain is an oracle. *)
Class MulticallEngine := {
  runBatches : Z -> list AlivePool -> EngineOutcome;
}.

(** [Number(bigint)]: the nearest binary64 value. *)
Class Conversions := {
  Number : Z -> float;
}.

(** Modelled from the spec: the refresh interval of a tier, in
    milliseconds ("high: refresh every 5 s; normal: 10 s; low: 30 s"). *)
Definition tierInterval (t : Tier) : Z :=
  match t with
  | high => 5000
  | normal => 10000
  | low => 30000
  end.

(** [getAliveSet().find(p => p.address === a)], as a reference. *)
Fixpoint findRef (a : string) (alive : AliveSet) : option PoolRef :=
  match alive with
  | [] => None
  | p :: r =>
      if String.eqb (address p) a then Some 0%nat
      else option_map S (findRef a r)
  end.

Definition setNextRefresh (t : Z) (p : AlivePool) : AlivePool :=
  {| address := address p; chainId := chainId p; tier := tier p;
     nextRefresh := t;
     lastBlockSeen := lastBlockSeen p; lastPrice := lastPrice p;
     requestCount := requestCount p; lastRequestTime := lastRequestTime p |}.

Definition setSeen (block : Z) (price : float) (p : AlivePool) : AlivePool :=
  {| address := address p; chainId := chainId p; tier := tier p;
     nextRefresh := nextRefresh p;
     lastBlockSeen := block; lastPrice := price;
     requestCount := requestCount p; lastRequestTime := lastRequestTime p |}.

(** In-place update of the object behind a reference. *)
Definition mutate (r : PoolRef) (f : AlivePool -> AlivePool)
    (alive : AliveSet) : AliveSet :=
  match alive !! r with
  | Some p => <[r := f p]> alive
  | None => alive
  end.

(** The loop-carried state of the result loop: the alive set and the two
    counters. *)
Record Progress := {
  aliveSet : AliveSet;
  blockAwareSavings : Z;
  computationsPerformed : Z;
}.

Section Tick.
Context `{PoolController} `{MulticallEngine} `{Conversions}.

(** The body of [for (const result of multicallResults)]. *)
Definition processResult (now : Z) (s : Progress) (result : MulticallResult)
    : Progress :=
  let alive := aliveSet s in
  match success result, data result with
  | true, Some d =>
      let pool := findRef (poolAddress result) alive in
      let sameBlock :=
        match pool ≫= (fun r => alive !! r) with
        | Some p => blockNumber result =? lastBlockSeen p
        | None => false
        end in
      if sameBlock && negb (blockNumber result =? 0) then
        {| aliveSet := alive;
           blockAwareSavings := blockAwareSavings s + 1;
           computationsPerformed := computationsPerformed s |}
      else
        let alive' :=
          match pool with
          | Some r =>
              let price := PrimFloat.sqrt (Number (sqrtPriceX96 d) / 0x1p96)%float in
              let alive1 := updatePoolTier now (poolAddress result) price alive in
              mutate r (setSeen (blockNumber result) price) alive1
          | None => alive
          end in
        {| aliveSet := alive';
           blockAwareSavings := blockAwareSavings s;
           computationsPerformed := computationsPerformed s + 1 |}
  | _, _ => s
  end.

(** [executeForChain(chainId, poolsDue)]; the answer tells whether an
    exception leaves the function. *)
Definition executeForChain (now : Z) (chainId_ : Z) (poolsDue : list PoolRef)
    (alive : AliveSet) : AliveSet * bool :=
  match poolsDue with
  | [] => (alive, false)
  | _ =>
      let due := omap (fun r => alive !! r) poolsDue in
      match runBatches chainId_ due with
      | PrepareThrows => (alive, true)
      | Results multicallResults =>
          let s :=
            fold_left (processResult now) multicallResults
              {| aliveSet := alive;
                 blockAwareSavings := 0;
                 computationsPerformed := 0 |} in
          (aliveSet s, false)
      | ExecuteThrows =>
          (fold_left (fun a r => mutate r (setNextRefresh (now + 5000)) a)
                     poolsDue alive,
           false)
      end
  end.

(** [poolsByChain]: a [Map] from chain to pools, in insertion order. *)
Fixpoint addToChain (c : Z) (r : PoolRef) (m : list (Z * list PoolRef))
    : list (Z * list PoolRef) :=
  match m with
  | [] => [(c, [r])]
  | (c', rs) :: m' =>
      if c' =? c then (c', (rs ++ [r])%list) :: m'
      else (c', rs) :: addToChain c r m'
  end.

Definition groupByChain (alive : AliveSet) (poolsDue : list PoolRef)
    : list (Z * list PoolRef) :=
  fold_left
    (fun m r =>
       match alive !! r with
       | Some pool => addToChain (orDefault (Some (chainId pool)) 1) r m
       | None => m
       end)
    poolsDue [].




End Tick.

(** *** Starting and stopping

    The scheduler's two fields, and the interval timers of the runtime:
    the handles that are running and the next handle [setInterval] hands
    out. *)
Record Lifecycle := {
  isRunning : bool;
  executionLoopIntervalId : option nat;
}.

Record Timers := {
  running : gset nat;
  nextHandle : nat;
}.

Definition setInterval (t : Timers) : nat * Timers :=
  (nextHandle t,
   {| running := {[nextHandle t]} ∪ running t;
      nextHandle := S (nextHandle t) |}).

Definition clearInterval (id : nat) (t : Timers) : Timers :=
  {| running := running t ∖ {[id]}; nextHandle := nextHandle t |}.

Definition start (s : Lifecycle * Timers) : Lifecycle * Timers :=
  let '(sched, t) := s in
  if isRunning sched then s
  else
    let '(id, t') := setInterval t in
    ({| isRunning := true; executionLoopIntervalId := Some id |}, t').

Definition stop (s : Lifecycle * Timers) : Lifecycle * Timers :=
  let '(sched, t) := s in
  if negb (isRunning sched) then s
  else
    match executionLoopIntervalId sched with
    | Some id =>
        ({| isRunning := false; executionLoopIntervalId := None |},
         clearInterval id t)
    | None =>
        ({| isRunning := false; executionLoopIntervalId := None |}, t)
    end.

Definition isActive (sched : Lifecycle) : bool := isRunning sched.

(** A new [PoolScheduler]. *)
Definition newScheduler : Lifecycle :=
  {| isRunning := false; executionLoopIntervalId := None |}.

Inductive Command := Start | Stop.

Definition command (s : Lifecycle * Timers) (c : Command) : Lifecycle * Timers :=
  match c with
  | Start => start s
  | Stop => stop s
  end.

(** The pool references of all groups of [poolsByChain]. *)
Definition groupRefs (m : list (Z * list PoolRef)) : list PoolRef :=
  concat (map snd m).

(** [result.success && result.data] *)
Definition usable (result : MulticallResult) : bool :=
  success result && match data result with Some _ => true | None => false end.

End Scheduler.

(** ** The chain adapter over ethers: [EthersAdapter] *)

Module Ethers.
Import JS.

(** One entry of a Multicall3 [aggregate] request. *)
Record Call := {
  target : string;
  callData : string;
}.

(** One result of [getBatchPoolData]. *)
Record PoolDatum := {
  datum_address : string;
  datum_sqrtPriceX96 : Z;
  datum_liquidity : Z;
}.

(** The Etherscan answer as far as [getTopPools] reads it; [json_result]
    is [None] when [data.result] is not an array. *)
Record Holder := {
  holder_address : string;
}.

Record Json := {
  json_status : string;
  json_result : option (list Holder);
}.

Record FetchResponse := {
  ok : bool;
  json : Discovery.Completion Json;
}.

(** The ethers library: address check, ABI encoding and decoding.  A
    decoder is handed the return data at an index, [None] when the index
    is out of range, and returns or throws. *)
Class EthersLib := {
  isAddress : string -> bool;
  encodeFunctionData : string -> string;
  decodeNumber : string -> option string -> Discovery.Completion Z;
  decodeAddress : string -> option string -> Discovery.Completion string;
}.

(** The network: the Multicall3 contract behind the provider, and
    [fetch]. *)
Class Network := {
  aggregate : list Call -> Discovery.Completion (list string);
  fetch : string -> Discovery.Completion FetchResponse;
}.

Record EthersAdapter := {
  chainName : string;
  stableTokenAddress : string;
  etherscanApiKey : string;
}.

Section Adapter.
Context `{EthersLib} `{Network}.

Definition getChainName (a : EthersAdapter) : string := chainName a.

Definition getStableTokenAddress (a : EthersAdapter) : string :=
  stableTokenAddress a.

(** The calls of [getBatchPoolData]: [slot0] and [liquidity] per pool. *)
Definition slotCalls (validAddresses : list string) : list Call :=
  flat_map
    (fun address =>
       [ {| target := address; callData := encodeFunctionData "slot0" |};
         {| target := address; callData := encodeFunctionData "liquidity" |} ])
    validAddresses.

(** The decoding loop of [getBatchPoolData], from index [i] on. *)
Fixpoint decodeData (returnData : list string) (validAddresses : list string)
    (i : nat) : list PoolDatum :=
  match validAddresses with
  | [] => []
  | address :: rest =>
      match decodeNumber "slot0" (returnData !! (i * 2)%nat),
            decodeNumber "liquidity" (returnData !! (i * 2 + 1)%nat) with
      | Discovery.Return sqrtPriceX96, Discovery.Return liquidity =>
          {| datum_address := address;
             datum_sqrtPriceX96 := sqrtPriceX96;
             datum_liquidity := liquidity |}
          :: decodeData returnData rest (S i)
      | _, _ => decodeData returnData rest (S i)
      end
  end.

(** [getBatchPoolData(poolAddresses)]: the results, and the [aggregate]
    requests that were sent. *)
Definition getBatchPoolData (poolAddresses : list string)
    : list PoolDatum * list (list Call) :=
  match poolAddresses with
  | [] => ([], [])
  | _ =>
      let validAddresses := List.filter isAddress poolAddresses in
      match validAddresses with
      | [] => ([], [])
      | _ =>
          let calls := slotCalls validAddresses in
          match aggregate calls with
          | Discovery.Return returnData =>
              (decodeData returnData validAddresses 0, [calls])
          | Discovery.Throw => ([], [calls])
          end
      end
  end.

Definition etherscanUrl (a : EthersAdapter) : string :=
  "https://api.etherscan.io/v2/api?chainid=1&module=token&action=tokenholderlist&address="
  ++ stableTokenAddress a ++ "&apikey=" ++ etherscanApiKey a.

(** The calls of [getTopPools]: [token0], [token1] and [fee] per holder. *)
Definition topologyCalls (potentialPools : list string) : list Call :=
  flat_map
    (fun address =>
       [ {| target := address; callData := encodeFunctionData "token0" |};
         {| target := address; callData := encodeFunctionData "token1" |};
         {| target := address; callData := encodeFunctionData "fee" |} ])
    potentialPools.

Definition placeholderToken (address : string) : Snapshot.Token :=
  {| Snapshot.symbol := "..."; Snapshot.name := "...";
     Snapshot.address := address; Snapshot.decimals := 18;
     Snapshot.logoURI := None |}.

(** [!res || res === "0x"] *)
Definition noData (res : option string) : bool :=
  match res with
  | None => true
  | Some r => negb (truthyString (Some r)) || String.eqb r "0x"
  end.

(** The loop of [getTopPools] over the candidate pools, from index [i]
    on. *)
Fixpoint decodePools (a : EthersAdapter) (returnData : list string)
    (potentialPools : list string) (i : nat) : list Snapshot.Pool :=
  match potentialPools with
  | [] => []
  | address :: rest =>
      let next := decodePools a returnData rest (S i) in
      let res := returnData !! (i * 3)%nat in
      if noData res then next
      else
        match decodeAddress "token0" res,
              decodeAddress "token1" (returnData !! (i * 3 + 1)%nat),
              decodeNumber "fee" (returnData !! (i * 3 + 2)%nat) with
        | Discovery.Return t0, Discovery.Return t1, Discovery.Return fee =>
            if negb (String.eqb (toLowerCase t0)
                                (toLowerCase (stableTokenAddress a)))
               && negb (String.eqb (toLowerCase t1)
                                   (toLowerCase (stableTokenAddress a)))
            then next
            else
              {| Snapshot.pool_address := address;
                 Snapshot.token0 := placeholderToken t0;
                 Snapshot.token1 := placeholderToken t1;
                 Snapshot.reserve0 := 0;
                 Snapshot.reserve1 := 0;
                 Snapshot.feeTier := Some fee |} :: next
        | _, _, _ => next
        end
  end.

(** [getTopPools(limit)]: every failure ends in the empty list. *)
Definition getTopPools (a : EthersAdapter) (limit : Z) : list Snapshot.Pool :=
  match fetch (etherscanUrl a) with
  | Discovery.Throw => []
  | Discovery.Return response =>
      if negb (ok response) then []
      else
        match json response with
        | Discovery.Throw => []
        | Discovery.Return data =>
            match json_result data with
            | None => []
            | Some result =>
                if negb (String.eqb (json_status data) "1") then []
                else
                  let potentialPools :=
                    map holder_address (slice result 0 limit) in
                  match aggregate (topologyCalls potentialPools) with
                  | Discovery.Throw => []
                  | Discovery.Return returnData =>
                      decodePools a returnData potentialPools 0
                  end
            end
        end
  end.

(** The adapter as the snapshot service sees it. *)
Definition asChainAdapter (a : EthersAdapter) : Snapshot.IChainAdapter :=
  {| Snapshot.getChainName := getChainName a;
     Snapshot.getTopPools := getTopPools a;
     Snapshot.getStableTokenAddress := getStableTokenAddress a |}.

End Adapter.

End Ethers.

(** ** The client: [hooks/use-snapshots.ts] and [pages/Dashboard.tsx] *)

Module Client.
Import JS Snapshot.

(** [Response.ok]: the status is in the range 200-299. *)
Definition ok (res : Response) : bool :=
  (200 <=? status res) && (status res <=? 299).

(** The request that [queryFn] sends for a page parameter, as the route
    reads it: the chain in the place of [:chain] (a chain name without
    reserved URL characters), and [offset=${pageParam}&limit=25] as the
    query. *)
Definition pageRequest (chain_ : string) (pageParam : Z) : Request :=
  {| params_chain := chain_;
     query_offset := Some (Discovery.toString pageParam);
     query_limit := Some "25" |}.

(** [queryFn] of [useSnapshot], against a server [serve]. *)
Definition queryFn (serve : Request -> Response) (chain_ : string)
    (pageParam : Z) : Thrown + Body :=
  let res := serve (pageRequest chain_ pageParam) in
  if negb (ok res) then
    if status res =? 404
    then inl (Error ("No data available for " ++ chain_))
    else inl (Error "Failed to fetch snapshot data")
  else inr (body res).

Definition initialPageParam : Z := 0.

(** [getNextPageParam(lastPage, allPages)]; [None] is [undefined]. *)
Definition getNextPageParam (lastPage : ChainSnapshot)
    (allPages : list ChainSnapshot) : option Z :=
  let nextOffset := Z.of_nat (length allPages) * 25 in
  if nextOffset <? 1000 then Some nextOffset else None.

(** The page parameter of the next fetch of the infinite query:
    [initialPageParam] when no page is loaded, and what [getNextPageParam]
    answers for the last page and all pages otherwise; [None] when there
    is no next page. *)
Definition nextPageParam (allPages : list ChainSnapshot) : option Z :=
  match last allPages with
  | None => Some initialPageParam
  | Some lastPage => getNextPageParam lastPage allPages
  end.




End Client.

(** ** Concrete inputs used by the examples below *)

Module Examples.
Import Snapshot.

Definition USDC : Token :=
  {| address := "0xA0b86991c6218b36c1d19D4a2e9Eb0cE3606eB48";
     symbol := "USDC"; name := "USD Coin"; decimals := 6; logoURI := None |}.

Definition WETH : Token :=
  {| address := "0xC02aaA39b223FE8D0A0e5C4F27eAD9083C756Cc2";
     symbol := "WETH"; name := "Wrapped Ether"; decimals := 18; logoURI := None |}.

(** The same token as [WETH], its address written in lower case. *)
Definition weth_lower : Token :=
  {| address := "0xc02aaa39b223fe8d0a0e5c4f27ead9083c756cc2";
     symbol := "WETH"; name := "WETH"; decimals := 18; logoURI := None |}.

Definition staticTokens : StaticTokens :=
  {| SUPPORTED_TOKENS :=
       <["ethereum" := [USDC; WETH]]> (<["polygon" := [USDC]]> ∅) |}.

(** Stand-ins for the pricing library, enough to tell pools apart: the
    price is the second reserve, the liquidity the sum of the two prices. *)
Definition pricing : Pricing :=
  {| computeSpotPrice := fun p _ _ => of_uint63 (Uint63.of_Z (reserve1 p));
     computeLiquidityUSD := fun _ p0 p1 => (p0 + p1)%float |}.

(** Two v3 pools of the pair USDC/WETH that differ in their address. *)
Definition pool_bb : Pool :=
  {| pool_address := "0xbb"; token0 := USDC; token1 := WETH;
     reserve0 := 1; reserve1 := 3500; feeTier := Some 3000 |}.

Definition pool_aa : Pool :=
  {| pool_address := "0xaa"; token0 := USDC; token1 := WETH;
     reserve0 := 1; reserve1 := 3600; feeTier := Some 3000 |}.

(** An adapter that lists [pool_bb] before [pool_aa]. *)
Definition twoPoolAdapter : IChainAdapter :=
  {| getChainName := "ethereum";
     getTopPools := fun _ => [pool_bb; pool_aa];
     getStableTokenAddress := address USDC |}.

Definition twoPoolService : SnapshotService :=
  @newSnapshotService [twoPoolAdapter].

(** The service as [registerRoutes] wires it, over [staticTokens]. *)
Definition wiredService : SnapshotService :=
  default (@newSnapshotService []) (@registerRoutes staticTokens).

Definition request (chain_ : string) (offset limit : option string) : Request :=
  {| params_chain := chain_; query_offset := offset; query_limit := limit |}.

(** A chain on which one pool exists: USDC against the probed token at
    fee tier 3000. *)
Definition onePoolChain : Discovery.EthersAdapter :=
  {| Discovery.getPoolAddress := fun _ _ tokenB _ fee =>
       if String.eqb (Discovery.address tokenB)
            "0xa0b86991c6218b36c1d19d4a2e9eb0ce3606eb48"
          && (fee =? 3000)
       then Discovery.Return (Some "0x8ad599c3A0ff1De082011EFDDc58f1908eb6e6D8")
       else Discovery.Return None;
     Discovery.getPoolState := fun _ _ _ =>
       Discovery.Return
         {| Discovery.state_token0 := "0xA0b86991c6218b36c1d19D4a2e9Eb0cE3606eB48";
            Discovery.state_token1 := "0xC02aaA39b223FE8D0A0e5C4F27eAD9083C756Cc2" |} |}.

(** A clock that reads 60 s on every reading. *)
Definition clockAt60s : Discovery.Clock :=
  {| Discovery.Date_now := fun _ => 60000 |}.

Definition wethToken : Discovery.Token :=
  {| Discovery.address := "0xC02aaA39b223FE8D0A0e5C4F27eAD9083C756Cc2";
     Discovery.symbol := "WETH"; Discovery.name := "";
     Discovery.decimals := 18; Discovery.chainId := None |}.

Definition emptyWorld : Discovery.World :=
  {| Discovery.discoveryAttempts := ∅;
     Discovery.storage := ∅;
     Discovery.clockReads := 0;
     Discovery.rpcLog := [] |}.

(** A world in which discovery of WETH on chain 1 was attempted at time 0
    and found nothing. *)
Definition attemptedWorld : Discovery.World :=
  {| Discovery.discoveryAttempts :=
       <[Discovery.attemptKey wethToken 1 :=
           {| Discovery.tokenAddress := Discovery.address wethToken;
              Discovery.attempt_chainId := 1;
              Discovery.attemptedAt := 0;
              Discovery.poolsFound := 0;
              Discovery.succeeded := false |}]> ∅;
     Discovery.storage := ∅;
     Discovery.clockReads := 0;
     Discovery.rpcLog := [] |}.

(** A pool on chain 1 that is due: tier normal, last seen at block 100. *)
Definition duePool : Scheduler.AlivePool :=
  {| Scheduler.address := "0x8ad599c3A0ff1De082011EFDDc58f1908eb6e6D8";
     Scheduler.chainId := 1;
     Scheduler.tier := Scheduler.normal;
     Scheduler.nextRefresh := 0;
     Scheduler.lastBlockSeen := 100;
     Scheduler.lastPrice := 1%float;
     Scheduler.requestCount := 0;
     Scheduler.lastRequestTime := 0 |}.

Definition poolData : Scheduler.PoolData :=
  {| Scheduler.sqrtPriceX96 := 79228162514264337593543950336;
     Scheduler.liquidity := 1000 |}.

(** A successful result for [duePool] at the block it was last seen at. *)
Definition sameBlockResult : Scheduler.MulticallResult :=
  {| Scheduler.poolAddress := Scheduler.address duePool;
     Scheduler.success := true;
     Scheduler.data := Some poolData;
     Scheduler.blockNumber := 100 |}.

(** A failed result for [duePool]. *)
Definition failedResult : Scheduler.MulticallResult :=
  {| Scheduler.poolAddress := Scheduler.address duePool;
     Scheduler.success := false;
     Scheduler.data := None;
     Scheduler.blockNumber := 0 |}.

(** An engine that answers the given results whatever it is asked. *)
Definition engineAnswering (results : list Scheduler.MulticallResult)
    : Scheduler.MulticallEngine :=
  {| Scheduler.runBatches := fun _ _ => Scheduler.Results results |}.


(** A pool controller that answers the pools whose refresh time has come
    and leaves tiers alone, and a conversion for small integers. *)
Definition dueController : Scheduler.PoolController :=
  {| Scheduler.getPoolsForRefresh := fun now alive =>
       List.filter
         (fun r => match alive !! r with
                   | Some p => Scheduler.nextRefresh p <=? now
                   | None => false
                   end)
         (seq 0 (length alive));
     Scheduler.updatePoolTier := fun _ _ _ alive => alive |}.

Definition smallNumbers : Scheduler.Conversions :=
  {| Scheduler.Number := fun z => of_uint63 (Uint63.of_Z z) |}.

(** A pool on chain 137 that is not due before time 50000. *)
Definition laterPool : Scheduler.AlivePool :=
  {| Scheduler.address := "0xA374094527e1673A86dE625aa59517c5dE346d32";
     Scheduler.chainId := 137;
     Scheduler.tier := Scheduler.low;
     Scheduler.nextRefresh := 50000;
     Scheduler.lastBlockSeen := 7;
     Scheduler.lastPrice := 1%float;
     Scheduler.requestCount := 0;
     Scheduler.lastRequestTime := 0 |}.

(** A successful result for a pool nobody tracks. *)
Definition strayResult : Scheduler.MulticallResult :=
  {| Scheduler.poolAddress := "0x0000000000000000000000000000000000000001";
     Scheduler.success := true;
     Scheduler.data := Some poolData;
     Scheduler.blockNumber := 5 |}.

(** A stand-in for ethers: an address starts with 0x, a call is encoded
    by its name, an address is decoded as the data themselves and a number
    as 3000; missing data make the decoder throw. *)
Definition plainEthers : Ethers.EthersLib :=
  {| Ethers.isAddress := String.prefix "0x";
     Ethers.encodeFunctionData := fun name => name;
     Ethers.decodeNumber := fun _ data =>
       match data with
       | Some _ => Discovery.Return 3000
       | None => Discovery.Throw
       end;
     Ethers.decodeAddress := fun _ data =>
       match data with
       | Some d => Discovery.Return d
       | None => Discovery.Throw
       end |}.

(** A network on which Etherscan lists two holders, of which 0xPoolA is a
    USDC/WETH pool and 0xPoolB a pool without the stable token. *)
Definition twoHolderNetwork : Ethers.Network :=
  {| Ethers.aggregate := fun calls =>
       Discovery.Return
         (map (fun c =>
                 if String.eqb (Ethers.target c) "0xPoolA"
                 then if String.eqb (Ethers.callData c) "token0"
                      then Snapshot.address USDC
                      else Snapshot.address WETH
                 else "0x00000000000000000000000000000000000000bb")
              calls);
     Ethers.fetch := fun _ =>
       Discovery.Return
         {| Ethers.ok := true;
            Ethers.json :=
              Discovery.Return
                {| Ethers.json_status := "1";
                   Ethers.json_result :=
                     Some [ {| Ethers.holder_address := "0xPoolB" |};
                            {| Ethers.holder_address := "0xPoolA" |} ] |} |} |}.

Definition mainnetAdapter : Ethers.EthersAdapter :=
  {| Ethers.chainName := "ethereum";
     Ethers.stableTokenAddress := "0xa0b86991c6218b36c1d19d4a2e9eb0ce3606eb48";
     Ethers.etherscanApiKey := "KEY" |}.

(** The pool that [mainnetAdapter] reads off [twoHolderNetwork]. *)
Definition usdcWethPool : Pool :=
  {| pool_address := "0xPoolA";
     token0 := Ethers.placeholderToken (address USDC);
     token1 := Ethers.placeholderToken (address WETH);
     reserve0 := 0;
     reserve1 := 0;
     feeTier := Some 3000 |}.


End Examples.

(** * Properties *)

(** ** Query parameters of the snapshot endpoint *)

Section QueryParameters.
Import JS Snapshot.

Lemma orDefault_nonzero n d : n <> 0 -> orDefault (Some n) d = n.
Proof.
  intros Hn. unfold orDefault.
  destruct (Z.eqb_spec n 0); [contradiction | reflexivity].
Qed.

(** C7, as the specification states it, fails on its last part: a request
    with [limit=500] has the effective limit 500. *)
Lemma C7_limit_above_100 :
  parseLimit (Examples.request "ethereum" None (Some "500")) = 500
  /\ ~ (forall req, parseLimit req <= 100).
Proof.
  split; [reflexivity |].
  intros Hcap.
  specialize (Hcap (Examples.request "ethereum" None (Some "500"))).
  vm_compute in Hcap. apply Hcap. reflexivity.
Qed.

(** C7 (amended): a missing [offset] defaults to 0, a missing [limit]
    defaults to 25, and a [limit] that parses to a nonzero integer is the
    effective limit as it stands, whatever its size. *)
Theorem C7_query_defaults (req : Request) :
  (query_offset req = None -> parseOffset req = 0)
  /\ (query_limit req = None -> parseLimit req = 25)
  /\ (forall n, parseInt (query_limit req) = Some n -> n <> 0 ->
        parseLimit req = n).
Proof.
  unfold parseOffset, parseLimit. repeat split.
  - intros ->. reflexivity.
  - intros ->. reflexivity.
  - intros n -> Hn. now apply orDefault_nonzero.
Qed.

Lemma C7_query_defaults_witness :
  parseOffset (Examples.request "ethereum" None None) = 0
  /\ parseLimit (Examples.request "ethereum" None None) = 25
  /\ parseLimit (Examples.request "ethereum" None (Some "100000")) = 100000.
Proof.
  pose proof (C7_query_defaults (Examples.request "ethereum" None None))
    as (Hoff & Hlim & _).
  pose proof (C7_query_defaults
                (Examples.request "ethereum" None (Some "100000")))
    as (_ & _ & Hbig).
  split; [apply Hoff; reflexivity |].
  split; [apply Hlim; reflexivity |].
  apply Hbig; [vm_compute; reflexivity | lia].
Defined.

End QueryParameters.

(** ** The merged token list and its window *)

Section MergedList.
Import JS Snapshot.

Lemma filter_agree {A} (P Q : A -> Prop)
    `{!forall x, Decision (P x)} `{!forall x, Decision (Q x)} (l : list A) :
  (forall x, x ∈ l -> P x <-> Q x) -> filter P l = filter Q l.
Proof.
  induction l as [|a l IH]; intros Hag; [reflexivity |].
  assert (Hl : filter P l = filter Q l).
  { apply IH. intros x Hx. apply Hag. now right. }
  destruct (decide (P a)) as [Ha | Ha].
  - rewrite (filter_cons_True P) by exact Ha.
    rewrite (filter_cons_True Q) by (apply Hag; [left | exact Ha]).
    now rewrite Hl.
  - rewrite (filter_cons_False P) by exact Ha.
    rewrite (filter_cons_False Q).
    + exact Hl.
    + intros Hq. apply Ha. apply Hag; [left | exact Hq].
Qed.

(** On a list without repeated keys, the specification's pass is a filter
    against the keys seen at its start. *)
Lemma spec_dedup_filter (l : list TokenMetadata) (seen : gset string) :
  NoDup (map keyOf l) ->
  spec_dedup seen l = filter (fun t => keyOf t ∉ seen) l.
Proof.
  revert seen. induction l as [|t r IH]; intros seen Hnd; [reflexivity |].
  cbn [map] in Hnd. apply NoDup_cons in Hnd as [Hfresh Hnd].
  cbn [spec_dedup].
  destruct (decide (keyOf t ∈ seen)) as [Hin | Hout].
  - rewrite filter_cons_False by (intros Hn; now apply Hn).
    now apply IH.
  - rewrite filter_cons_True by exact Hout.
    f_equal. rewrite IH by exact Hnd.
    apply filter_agree. intros x Hx.
    assert (keyOf x <> keyOf t).
    { intros Heq. apply Hfresh. rewrite <- Heq.
      apply list_elem_of_fmap. now exists x. }
    set_solver.
Qed.

(** The pass over a concatenation continues with the keys of the first
    part added to the keys seen. *)
Lemma spec_dedup_app (l1 l2 : list TokenMetadata) (seen : gset string) :
  spec_dedup seen (l1 ++ l2)%list =
  (spec_dedup seen l1
   ++ spec_dedup (seen ∪ list_to_set (map keyOf l1)) l2)%list.
Proof.
  revert seen. induction l1 as [|t r IH]; intros seen.
  - cbn. f_equal. set_solver.
  - cbn [app spec_dedup map].
    destruct (decide (keyOf t ∈ seen)) as [Hin | Hout].
    + rewrite IH. do 2 f_equal. set_solver.
    + rewrite IH. cbn [app]. do 3 f_equal. set_solver.
Qed.

(** The specification's merged list never repeats a key. *)
Lemma spec_dedup_NoDup (l : list TokenMetadata) (seen : gset string) :
  NoDup (map keyOf (spec_dedup seen l))
  /\ forall t, t ∈ spec_dedup seen l -> keyOf t ∉ seen.
Proof.
  revert seen. induction l as [|t r IH]; intros seen.
  - split; [constructor | intros t Ht; inversion Ht].
  - cbn [spec_dedup].
    destruct (decide (keyOf t ∈ seen)) as [Hin | Hout]; [apply IH |].
    destruct (IH ({[keyOf t]} ∪ seen)) as [Hnd Hnot].
    split.
    + cbn [map]. apply NoDup_cons. split; [| exact Hnd].
      intros Hin. apply list_elem_of_fmap in Hin as (x & Heq & Hx).
      apply Hnot in Hx. rewrite <- Heq in Hx. set_solver.
    + intros x Hx. apply elem_of_cons in Hx as [-> | Hx]; [exact Hout |].
      apply Hnot in Hx. set_solver.
Qed.

(** Where neither the static nor the dynamic list repeats an address, the
    service's merge is the specification's, and no two entries share a
    lowercase address. *)
Lemma allMetadata_spec_merged (staticMeta dynamicMeta : list TokenMetadata) :
  NoDup (map keyOf staticMeta) ->
  NoDup (map keyOf dynamicMeta) ->
  allMetadata staticMeta dynamicMeta = spec_merged staticMeta dynamicMeta
  /\ NoDup (map keyOf (allMetadata staticMeta dynamicMeta)).
Proof.
  intros Hs Hd.
  assert (Heq : allMetadata staticMeta dynamicMeta
                = spec_merged staticMeta dynamicMeta).
  { unfold allMetadata, spec_merged.
    rewrite spec_dedup_app, !spec_dedup_filter by assumption.
    f_equal.
    - clear. induction staticMeta as [|t r IH]; [reflexivity |].
      rewrite filter_cons_True by set_solver. now rewrite <- IH.
    - apply filter_agree. intros x _. unfold keyOf. set_solver. }
  split; [exact Heq |].
  rewrite Heq. apply spec_dedup_NoDup.
Qed.

(** C9: the service keeps both of two dynamic entries that share a
    lowercase address, where the specification's merged list keeps the
    first only. *)
Theorem C9_dynamic_duplicates_kept :
  allMetadata [] [Examples.WETH; Examples.weth_lower]
    = [Examples.WETH; Examples.weth_lower]
  /\ keyOf Examples.WETH = keyOf Examples.weth_lower
  /\ spec_merged [] [Examples.WETH; Examples.weth_lower] = [Examples.WETH]
  /\ ~ NoDup (map keyOf (allMetadata [] [Examples.WETH; Examples.weth_lower])).
Proof.
  assert (Hall : allMetadata [] [Examples.WETH; Examples.weth_lower]
                 = [Examples.WETH; Examples.weth_lower]) by (vm_compute; reflexivity).
  split; [exact Hall |].
  split; [vm_compute; reflexivity |].
  split; [vm_compute; reflexivity |].
  rewrite Hall. intros Hnd. cbn [map] in Hnd.
  apply NoDup_cons in Hnd as [Hfresh _]. apply Hfresh.
  vm_compute. left.
Qed.

Lemma slice_beyond_end {A} (l : list A) (start end_ : Z) :
  Z.of_nat (length l) <= start -> slice l start end_ = [].
Proof.
  intros Hle. unfold slice, relativeIndex.
  destruct (Z.ltb_spec start 0); [exfalso; lia |].
  rewrite (Z.min_r start) by lia. rewrite Nat2Z.id, drop_all. apply take_nil.
Qed.

Lemma slice_empty_range {A} (l : list A) (start : Z) :
  slice l start (start + 0) = [].
Proof.
  unfold slice. rewrite Z.add_0_r, Z.sub_diag. reflexivity.
Qed.

End MergedList.

(** ** The snapshot service *)

Section SnapshotFacts.
Import JS Snapshot.
Context `{Pricing} `{StaticTokens}.

Lemma lookup_map {A B} (f : A -> B) (l : list A) (i : nat) :
  map f l !! i = f <$> (l !! i).
Proof.
  revert i. induction l as [|a l IH]; intros [|i]; cbn; auto.
Qed.

(** On a chain that has an adapter the service answers, and its entries
    are those of the window, in order. *)
Lemma generateSnapshot_supported svc now chain_ offset limit adapter :
  adapters svc !! toLowerCase chain_ = Some adapter ->
  exists svc',
    generateSnapshot svc now chain_ offset limit =
    inr ({| snapshot_timestamp := now;
            chain := getChainName adapter;
            entries :=
              map (entryFor (cache svc) now (toLowerCase chain_) adapter)
                  (windowedMetadata svc (toLowerCase chain_) offset limit) |},
         svc').
Proof.
  intros Had. unfold generateSnapshot. rewrite Had. eexists. reflexivity.
Qed.

Lemma getLatest_supported svc now req adapter :
  adapters svc !! toLowerCase (params_chain req) = Some adapter ->
  fst (getLatest svc now req) =
  {| status := 200;
     body :=
       SnapshotBody
         {| snapshot_timestamp := now;
            chain := getChainName adapter;
            entries :=
              map (entryFor (cache svc) now (toLowerCase (params_chain req))
                            adapter)
                  (windowedMetadata svc (toLowerCase (params_chain req))
                                    (parseOffset req) (parseLimit req)) |} |}.
Proof.
  intros Had. unfold getLatest.
  destruct (generateSnapshot_supported svc now (params_chain req)
              (parseOffset req) (parseLimit req) adapter Had) as [svc' ->].
  reflexivity.
Qed.

(** An offset at or beyond the end of the merged list gives status 200 and
    no entry. *)
Lemma getLatest_offset_beyond_end svc now req adapter :
  let chainKey := toLowerCase (params_chain req) in
  adapters svc !! chainKey = Some adapter ->
  Z.of_nat
    (length (allMetadata (default [] (SUPPORTED_TOKENS !! chainKey))
                         (default [] (dynamicTokens svc !! chainKey))))
    <= parseOffset req ->
  fst (getLatest svc now req) =
  {| status := 200;
     body := SnapshotBody {| snapshot_timestamp := now;
                             chain := getChainName adapter;
                             entries := [] |} |}.
Proof.
  intros chainKey Had Hlen.
  rewrite (getLatest_supported _ _ _ _ Had).
  unfold windowedMetadata. fold chainKey.
  now rewrite slice_beyond_end.
Qed.

(** The service itself, called with [limit = 0], answers no entry. *)
Lemma generateSnapshot_limit_zero svc now chain_ offset adapter :
  adapters svc !! toLowerCase chain_ = Some adapter ->
  exists svc',
    generateSnapshot svc now chain_ offset 0 =
    inr ({| snapshot_timestamp := now;
            chain := getChainName adapter;
            entries := [] |}, svc').
Proof.
  intros Had.
  destruct (generateSnapshot_supported svc now chain_ offset 0 adapter Had)
    as [svc' Hgen].
  exists svc'. rewrite Hgen.
  unfold windowedMetadata. now rewrite slice_empty_range.
Qed.

(** The handler never hands [limit = 0] to the service: it reads a zero as
    a missing parameter. *)
Lemma parseLimit_zero req :
  parseInt (query_limit req) = Some 0 -> parseLimit req = 25.
Proof. unfold parseLimit. now intros ->. Qed.

End SnapshotFacts.

(** C8: a request with [limit=0] on a supported chain is answered with the
    entries of the default window, not with an empty list. *)
Theorem C8_limit_zero_request :
  let req := Examples.request "ethereum" (Some "0") (Some "0") in
  let resp :=
    fst (@Snapshot.getLatest Examples.pricing Examples.staticTokens
           Examples.wiredService 1000 req) in
  Snapshot.parseLimit req = 25
  /\ Snapshot.status resp = 200
  /\ exists s,
       Snapshot.body resp = Snapshot.SnapshotBody s
       /\ map Snapshot.token (Snapshot.entries s)
          = [Examples.USDC; Examples.WETH].
Proof.
  split; [reflexivity |].
  split; [vm_compute; reflexivity |].
  eexists. split; [vm_compute; reflexivity |].
  vm_compute. reflexivity.
Qed.

Section PoolSelection.
Import JS Snapshot.
Context `{Pricing} `{StaticTokens}.

(** [findPool] answers the first pool of the list that has the token. *)
Lemma findPool_first pools meta l1 pool l2 :
  pools = (l1 ++ pool :: l2)%list ->
  Forall (fun q => hasToken meta q = false) l1 ->
  hasToken meta pool = true ->
  findPool pools meta = Some pool.
Proof.
  intros -> Hl1 Hp. unfold findPool.
  induction Hl1 as [|q l1 Hq _ IH]; cbn.
  - now rewrite Hp.
  - now rewrite Hq.
Qed.

(** The entry of a token of the window that has no fresh cache entry is
    the freshly computed one. *)
Lemma entry_of_uncached svc now chain_ offset limit adapter meta i :
  adapters svc !! toLowerCase chain_ = Some adapter ->
  windowedMetadata svc (toLowerCase chain_) offset limit !! i = Some meta ->
  freshCached (cache svc) now (cacheKey (toLowerCase chain_) meta) = None ->
  exists svc' snapshot,
    generateSnapshot svc now chain_ offset limit = inr (snapshot, svc')
    /\ entries snapshot !! i = Some (freshEntry adapter meta).
Proof.
  intros Had Hwin Hmiss.
  destruct (generateSnapshot_supported svc now chain_ offset limit adapter Had)
    as [svc' Hgen].
  eexists _, _. split; [exact Hgen |].
  cbn [entries]. rewrite lookup_map, Hwin. cbn.
  unfold entryFor. now rewrite Hmiss.
Qed.

(** C1, as the specification states it, fails: of two pools of equal weight
    the service takes the one listed first, here the one with the higher
    address, and prices the token from it. *)
Lemma C1_first_listed_not_best :
  let pools := getTopPools Examples.twoPoolAdapter 100 in
  findPool pools Examples.WETH = Some Examples.pool_bb
  /\ spec_pickPool pools Examples.WETH = Some Examples.pool_aa
  /\ exists snapshot svc',
       @generateSnapshot Examples.pricing Examples.staticTokens
         Examples.twoPoolService 1000 "ethereum" 0 25 = inr (snapshot, svc')
       /\ priceUSD <$> (entries snapshot !! 1%nat) = Some 3500%float
       /\ @computeSpotPrice Examples.pricing Examples.pool_bb
            (address Examples.WETH) (address Examples.USDC) = 3500%float
       /\ @computeSpotPrice Examples.pricing Examples.pool_aa
            (address Examples.WETH) (address Examples.USDC) <> 3500%float.
Proof.
  split; [vm_compute; reflexivity |].
  split; [vm_compute; reflexivity |].
  eexists _, _. split; [vm_compute; reflexivity |].
  split; [vm_compute; reflexivity |].
  split; [vm_compute; reflexivity |].
  intros Heq. apply (f_equal (fun x => PrimFloat.ltb x 3550)) in Heq.
  vm_compute in Heq. discriminate.
Qed.

(** C1 (amended): for a token of the window without a fresh cache entry,
    the service takes the first pool of the adapter's list that has the
    token as [token0] or [token1] (addresses compared in lower case), and
    computes [priceUSD] and [liquidityUSD] from that pool with the pricing
    library. *)
Theorem C1_first_listed_pool svc now chain_ offset limit adapter meta i
    l1 pool l2 :
  adapters svc !! toLowerCase chain_ = Some adapter ->
  windowedMetadata svc (toLowerCase chain_) offset limit !! i = Some meta ->
  freshCached (cache svc) now (cacheKey (toLowerCase chain_) meta) = None ->
  getTopPools adapter 100 = (l1 ++ pool :: l2)%list ->
  Forall (fun q => hasToken meta q = false) l1 ->
  hasToken meta pool = true ->
  exists svc' snapshot e,
    generateSnapshot svc now chain_ offset limit = inr (snapshot, svc')
    /\ entries snapshot !! i = Some e
    /\ let stable := getStableTokenAddress adapter in
       let isToken0Stable :=
         String.eqb (toLowerCase (address (token0 pool))) (toLowerCase stable) in
       let target := if isToken0Stable then token1 pool else token0 pool in
       priceUSD e = computeSpotPrice pool (address target) stable
       /\ liquidityUSD e =
          computeLiquidityUSD pool
            (if isToken0Stable then 1%float else priceUSD e)
            (if isToken0Stable then priceUSD e else 1%float).
Proof.
  intros Had Hwin Hmiss Hpools Hl1 Hp.
  destruct (entry_of_uncached _ _ _ _ _ _ _ _ Had Hwin Hmiss)
    as (svc' & snapshot & Hgen & He).
  exists svc', snapshot, (freshEntry adapter meta).
  split; [exact Hgen |]. split; [exact He |].
  unfold freshEntry, priceAndLiquidity.
  rewrite (findPool_first _ _ _ _ _ Hpools Hl1 Hp).
  cbn. split; reflexivity.
Qed.

(** C4: a token of the window for which the lookup finds no pool gets the
    synthetic entry: price 1, liquidity 500000, the token's own metadata,
    and the two derived figures. *)
Theorem C4_synthetic_entry svc now chain_ offset limit adapter meta i :
  adapters svc !! toLowerCase chain_ = Some adapter ->
  windowedMetadata svc (toLowerCase chain_) offset limit !! i = Some meta ->
  freshCached (cache svc) now (cacheKey (toLowerCase chain_) meta) = None ->
  findPool (getTopPools adapter 100) meta = None ->
  exists svc' snapshot e,
    generateSnapshot svc now chain_ offset limit = inr (snapshot, svc')
    /\ length (entries snapshot)
       = length (windowedMetadata svc (toLowerCase chain_) offset limit)
    /\ entries snapshot !! i = Some e
    /\ priceUSD e = 1%float
    /\ liquidityUSD e = 500000%float
    /\ token e = meta
    /\ volumeUSD e = (500000 * 0.15)%float
    /\ marketCapUSD e = (1 * 10000000)%float.
Proof.
  intros Had Hwin Hmiss Hnone.
  destruct (generateSnapshot_supported svc now chain_ offset limit adapter Had)
    as [svc' Hgen].
  exists svc'. eexists. exists (freshEntry adapter meta).
  split; [exact Hgen |].
  split; [cbn [entries]; apply length_map |].
  split.
  { cbn [entries]. rewrite lookup_map, Hwin. cbn.
    unfold entryFor. now rewrite Hmiss. }
  unfold freshEntry, priceAndLiquidity. rewrite Hnone. cbn.
  repeat split. now destruct meta.
Qed.

End PoolSelection.

Section PoolSelectionWitnesses.
Import JS Snapshot.

Lemma C1_first_listed_pool_witness :
  exists svc' snapshot e,
    @generateSnapshot Examples.pricing Examples.staticTokens
      Examples.twoPoolService 1000 "ethereum" 0 25 = inr (snapshot, svc')
    /\ entries snapshot !! 1%nat = Some e
    /\ priceUSD e = 3500%float
    /\ liquidityUSD e = 3501%float.
Proof.
  destruct (@C1_first_listed_pool Examples.pricing Examples.staticTokens
              Examples.twoPoolService 1000 "ethereum" 0 25
              Examples.twoPoolAdapter Examples.WETH 1%nat
              [] Examples.pool_bb [Examples.pool_aa])
    as (svc' & snapshot & e & Hgen & He & Hprice & Hliq).
  - vm_compute; reflexivity.
  - vm_compute; reflexivity.
  - vm_compute; reflexivity.
  - reflexivity.
  - constructor.
  - vm_compute; reflexivity.
  - exists svc', snapshot, e.
    split; [exact Hgen |]. split; [exact He |].
    cbv zeta in Hprice, Hliq. rewrite Hliq, Hprice.
    split; vm_compute; reflexivity.
Defined.

Lemma C4_synthetic_entry_witness :
  exists svc' snapshot e,
    @generateSnapshot Examples.pricing Examples.staticTokens
      Examples.wiredService 1000 "Ethereum" 0 1 = inr (snapshot, svc')
    /\ entries snapshot = [e]
    /\ priceUSD e = 1%float
    /\ liquidityUSD e = 500000%float
    /\ token e = Examples.USDC.
Proof.
  destruct (@C4_synthetic_entry Examples.pricing Examples.staticTokens
              Examples.wiredService 1000 "Ethereum" 0 1
              (default Examples.twoPoolAdapter
                 (@MockAdapter Examples.staticTokens "ethereum"))
              Examples.USDC 0%nat)
    as (svc' & snapshot & e & Hgen & Hlen & He & Hp & Hl & Ht & _).
  - vm_compute; reflexivity.
  - vm_compute; reflexivity.
  - vm_compute; reflexivity.
  - vm_compute; reflexivity.
  - exists svc', snapshot, e.
    split; [exact Hgen |].
    split; [| now repeat split].
    change (length (windowedMetadata Examples.wiredService
                      (toLowerCase "Ethereum") 0 1)) with 1%nat in Hlen.
    destruct (entries snapshot) as [|e0 [|e1 r]]; try discriminate.
    cbn in He. congruence.
Defined.

End PoolSelectionWitnesses.

(** ** The service as wired by [registerRoutes] *)

Section WiredService.
Import JS Snapshot.
Context `{Pricing} `{StaticTokens}.

Lemma freshEntry_no_pools adapter meta :
  (forall n, getTopPools adapter n = []) ->
  synthetic (freshEntry adapter meta).
Proof.
  intros Hnone. unfold freshEntry, priceAndLiquidity.
  rewrite Hnone. cbn. split; reflexivity.
Qed.

Lemma freshCached_synthetic (c : gmap string Cached) now key e :
  (forall k v, c !! k = Some v -> synthetic (entry v)) ->
  freshCached c now key = Some e -> synthetic e.
Proof.
  intros Hc. unfold freshCached.
  destruct (c !! key) as [v |] eqn:Hv; [| discriminate].
  destruct (_ <? _); [| discriminate].
  intros [= <-]. exact (Hc _ _ Hv).
Qed.

Lemma storeEntry_synthetic c0 now chainKey adapter metas :
  (forall n, getTopPools adapter n = []) ->
  forall c : gmap string Cached,
    (forall k v, c !! k = Some v -> synthetic (entry v)) ->
    forall k v,
      fold_left (storeEntry c0 now chainKey adapter) metas c !! k = Some v ->
      synthetic (entry v).
Proof.
  intros Hnone. induction metas as [|meta metas IH]; intros c Hc; [exact Hc |].
  cbn [fold_left]. apply IH.
  intros k v. unfold storeEntry.
  destruct (freshCached c0 now (cacheKey chainKey meta)); [apply Hc |].
  rewrite lookup_insert. case_decide; [| apply Hc].
  intros [= <-]. now apply freshEntry_no_pools.
Qed.

Lemma coldInvariant_initial svc :
  registerRoutes = Some svc -> coldInvariant svc.
Proof.
  unfold registerRoutes, MockAdapter.
  destruct (match List.find _ (default [] (SUPPORTED_TOKENS !! toLowerCase "ethereum"))
            with Some t => Some t | None => _ end) as [stableE |];
    [| discriminate].
  destruct (match List.find _ (default [] (SUPPORTED_TOKENS !! toLowerCase "polygon"))
            with Some t => Some t | None => _ end) as [stableP |];
    [| discriminate].
  intros [= <-]. split.
  - intros k a. unfold newSnapshotService. cbn.
    rewrite lookup_insert. case_decide; [intros [= <-]; reflexivity |].
    rewrite lookup_insert. case_decide; [intros [= <-]; reflexivity |].
    rewrite lookup_empty. discriminate.
  - intros k c. cbn. rewrite lookup_empty. discriminate.
Qed.

Lemma coldInvariant_step svc ev :
  coldInvariant svc -> coldInvariant (step svc ev).
Proof.
  intros [Had Hc]. destruct ev as [now req | eth poly]; [| split; assumption].
  cbn [step]. unfold getLatest, generateSnapshot.
  destruct (adapters svc !! toLowerCase (params_chain req)) as [adapter |] eqn:Ha.
  - cbn. split; [exact Had |]. cbn [cache].
    apply storeEntry_synthetic; [exact (Had _ _ Ha) | exact Hc].
  - destruct (includes _ _); cbn; now split.
Qed.

(** In the service of [registerRoutes], whatever requests and token lists
    came before, every entry of every answer is synthetic. *)
Lemma wired_service_entries_synthetic svc0 events now req snapshot :
  registerRoutes = Some svc0 ->
  body (fst (getLatest (fold_left step events svc0) now req))
    = SnapshotBody snapshot ->
  Forall synthetic (entries snapshot).
Proof.
  intros Hreg.
  assert (Hinv : coldInvariant (fold_left step events svc0)).
  { apply coldInvariant_initial in Hreg. revert svc0 Hreg.
    induction events as [|ev events IH]; intros svc0 Hinv; [exact Hinv |].
    cbn [fold_left]. apply IH. now apply coldInvariant_step. }
  destruct Hinv as [Had Hc]. set (svc := fold_left step events svc0) in *.
  unfold getLatest, generateSnapshot.
  destruct (adapters svc !! toLowerCase (params_chain req)) as [adapter |] eqn:Ha.
  - cbn. intros [= <-]. cbn [entries]. apply Forall_forall. intros e He.
    apply list_elem_of_In, in_map_iff in He as (meta & <- & _).
    unfold entryFor.
    destruct (freshCached _ _ _) as [e |] eqn:Hfresh.
    + exact (freshCached_synthetic _ _ _ _ Hc Hfresh).
    + apply freshEntry_no_pools. exact (Had _ _ Ha).
  - destruct (includes _ _); cbn; discriminate.
Qed.

End WiredService.

(** ** The pool registry under insertion *)

Section RegistryFacts.
Import JS Discovery.

Lemma ensure_lookup key routes k (l : list PricingRoute) x :
  ensure key routes !! k = Some l -> x ∈ l ->
  exists l0, routes !! k = Some l0 /\ x ∈ l0.
Proof.
  unfold ensure. destruct (routes !! key) eqn:Hkey; intros Hl Hx; [eauto |].
  destruct (decide (key = k)) as [-> | Hne].
  - rewrite lookup_insert_eq in Hl. injection Hl as <-. inversion Hx.
  - rewrite lookup_insert_ne in Hl by exact Hne. eauto.
Qed.

Lemma ensure_keeps key routes k (l : list PricingRoute) :
  routes !! k = Some l -> ensure key routes !! k = Some l.
Proof.
  unfold ensure. destruct (routes !! key) eqn:Hkey; intros Hl; [exact Hl |].
  rewrite lookup_insert_ne; [exact Hl | congruence].
Qed.

Lemma ensure_present key (routes : gmap string (list PricingRoute)) :
  is_Some (ensure key routes !! key).
Proof.
  unfold ensure. destruct (routes !! key) eqn:Hkey.
  - rewrite Hkey. eauto.
  - rewrite lookup_insert_eq. eauto.
Qed.

Lemma ensure_present_other key key' (routes : gmap string (list PricingRoute)) :
  is_Some (routes !! key') -> is_Some (ensure key routes !! key').
Proof. intros [l Hl]. exists l. now apply ensure_keeps. Qed.

Lemma push_lookup key route routes k (l : list PricingRoute) x :
  push key route routes !! k = Some l -> x ∈ l ->
  x = route \/ exists l0, routes !! k = Some l0 /\ x ∈ l0.
Proof.
  unfold push. rewrite lookup_alter. intros Hl Hx.
  case_decide as Hk; [subst k |]; [| right; eauto].
  destruct (routes !! key) as [l0 |]; [| discriminate].
  cbn in Hl. injection Hl as <-.
  apply elem_of_app in Hx as [Hx | Hx]; [right; eauto |].
  left. now apply list_elem_of_singleton in Hx.
Qed.

Lemma push_keeps key route routes k (l : list PricingRoute) x :
  routes !! k = Some l -> x ∈ l ->
  exists l', push key route routes !! k = Some l' /\ x ∈ l'.
Proof.
  intros Hl Hx. unfold push. rewrite lookup_alter.
  case_decide as Hk; [subst k |]; [| eauto].
  rewrite Hl. cbn. eexists. split; [reflexivity |].
  apply elem_of_app. now left.
Qed.

Lemma push_adds key route (routes : gmap string (list PricingRoute)) :
  is_Some (routes !! key) ->
  exists l', push key route routes !! key = Some l' /\ route ∈ l'.
Proof.
  intros [l Hl]. unfold push. rewrite lookup_alter.
  case_decide; [| congruence].
  rewrite Hl. cbn. eexists. split; [reflexivity |].
  apply elem_of_app. right. apply list_elem_of_singleton. reflexivity.
Qed.

Lemma push_present key route (routes : gmap string (list PricingRoute)) k :
  is_Some (routes !! k) -> is_Some (push key route routes !! k).
Proof.
  intros [l Hl]. unfold push. rewrite lookup_alter.
  case_decide; [subst k |]; rewrite Hl; cbn; eauto.
Qed.

(** Every route of the registry after an insertion is a route of the
    registry before it, or one of the two new routes. *)
Lemma addPoolToRegistry_routes registry poolAddress poolState fee k l x :
  pricingRoutes (addPoolToRegistry registry poolAddress poolState fee) !! k
    = Some l ->
  x ∈ l ->
  pool x = poolAddress
  \/ exists l0, pricingRoutes registry !! k = Some l0 /\ x ∈ l0.
Proof.
  unfold addPoolToRegistry. cbn [pricingRoutes]. intros Hl Hx.
  apply (push_lookup _ _ _ _ _ _ Hl) in Hx as [-> | (l1 & Hl1 & Hx)];
    [now left |].
  apply (push_lookup _ _ _ _ _ _ Hl1) in Hx as [-> | (l2 & Hl2 & Hx)];
    [now left |].
  apply (ensure_lookup _ _ _ _ _ Hl2) in Hx as (l3 & Hl3 & Hx).
  apply (ensure_lookup _ _ _ _ _ Hl3) in Hx as (l4 & Hl4 & Hx).
  right. eauto.
Qed.

(** The pools of the registry after an insertion: the new metadata at the
    pool's address, the old ones elsewhere. *)
Lemma addPoolToRegistry_pools registry poolAddress poolState fee k :
  pools (addPoolToRegistry registry poolAddress poolState fee) !! k =
  if decide (poolAddress = k)
  then Some {| pool_address := poolAddress;
               dexType := if truthyNumber fee then v3 else v2;
               token0 := state_token0 poolState;
               token1 := state_token1 poolState;
               feeTier := fee;
               weight := if truthyNumber fee then 2 else 1 |}
  else pools registry !! k.
Proof.
  unfold addPoolToRegistry. cbn [pools]. rewrite lookup_insert.
  case_decide; [| reflexivity]. now destruct (truthyNumber fee).
Qed.

Lemma addPoolToRegistry_present registry poolAddress poolState fee :
  is_Some
    (pools (addPoolToRegistry registry poolAddress poolState fee)
       !! poolAddress).
Proof.
  rewrite addPoolToRegistry_pools. case_decide; [eauto | congruence].
Qed.

Lemma addPoolToRegistry_closed registry poolAddress poolState fee :
  routesClosed registry ->
  routesClosed (addPoolToRegistry registry poolAddress poolState fee).
Proof.
  intros Hclosed k l x Hl Hx.
  destruct (addPoolToRegistry_routes _ _ _ _ _ _ _ Hl Hx)
    as [-> | (l0 & Hl0 & Hx0)]; [apply addPoolToRegistry_present |].
  rewrite addPoolToRegistry_pools.
  case_decide; [eauto |]. exact (Hclosed _ _ _ Hl0 Hx0).
Qed.

Lemma addPoolToRegistry_route0 registry poolAddress poolState fee :
  hasRoute (addPoolToRegistry registry poolAddress poolState fee)
    (toLowerCase (state_token0 poolState)) poolAddress
    (state_token1 poolState).
Proof.
  unfold hasRoute, addPoolToRegistry. cbn [pricingRoutes].
  destruct (push_adds (toLowerCase (state_token0 poolState))
              {| pool := poolAddress; base := state_token1 poolState |}
              (ensure (toLowerCase (state_token1 poolState))
                 (ensure (toLowerCase (state_token0 poolState))
                    (pricingRoutes registry))))
    as (l & Hl & Hin).
  { apply ensure_present_other, ensure_present. }
  exact (push_keeps _ _ _ _ _ _ Hl Hin).
Qed.

Lemma addPoolToRegistry_route1 registry poolAddress poolState fee :
  hasRoute (addPoolToRegistry registry poolAddress poolState fee)
    (toLowerCase (state_token1 poolState)) poolAddress
    (state_token0 poolState).
Proof.
  unfold hasRoute, addPoolToRegistry. cbn [pricingRoutes].
  apply push_adds, push_present, ensure_present.
Qed.

(** C6: an insertion keeps every route's pool among the keys of [pools],
    and gives both tokens of the inserted pool, under their lowercase
    addresses, a route through that pool whose base is the other token. *)
Theorem C6_insertion_invariant registry poolAddress poolState fee :
  routesClosed registry ->
  let registry' := addPoolToRegistry registry poolAddress poolState fee in
  routesClosed registry'
  /\ is_Some (pools registry' !! poolAddress)
  /\ hasRoute registry' (toLowerCase (state_token0 poolState))
       poolAddress (state_token1 poolState)
  /\ hasRoute registry' (toLowerCase (state_token1 poolState))
       poolAddress (state_token0 poolState).
Proof.
  intros Hclosed registry'. unfold registry'.
  split; [now apply addPoolToRegistry_closed |].
  split; [apply addPoolToRegistry_present |].
  split; [apply addPoolToRegistry_route0 | apply addPoolToRegistry_route1].
Qed.

End RegistryFacts.

(** ** Discovery runs *)

Section DiscoveryRuns.
Import JS Discovery.
Context `{EthersAdapter} `{Clock}.

(** A property of the loop-carried value and the world that every
    iteration keeps holds after the loop. *)
Lemma forOf_invariant {A S} (I : S -> World -> Prop) (l : list A)
    (body : A -> S -> M S) :
  (forall x s w, x ∈ l -> I s w -> I (body x s w).1 (body x s w).2) ->
  forall s w, I s w -> I (forOf l body s w).1 (forOf l body s w).2.
Proof.
  induction l as [|a l IH]; intros Hbody s w HI; [exact HI |].
  cbn [forOf]. unfold bind.
  pose proof (Hbody a s w (list_elem_of_here a l) HI) as Hstep.
  destruct (body a s w) as [s' w'].
  apply IH; [| exact Hstep].
  intros x s0 w0 Hx. apply Hbody. now right.
Qed.

Lemma continues_refl ok log : continues ok log log.
Proof. exists []. split; [now rewrite app_nil_r | constructor]. Qed.

Lemma continues_snoc ok log log' c :
  ok c -> continues ok log log' -> continues ok log (log' ++ [c])%list.
Proof.
  intros Hc (new & -> & Hnew). exists (new ++ [c])%list.
  split; [now rewrite app_assoc |].
  apply Forall_app. split; [exact Hnew | now constructor].
Qed.

(** Inside the retry window the iteration for a token reads the clock
    once and does nothing else. *)
Lemma tokenStep_within_window chainId token l w a :
  discoveryAttempts w !! attemptKey token chainId = Some a ->
  Date_now (clockReads w) - attemptedAt a < DISCOVERY_RETRY_WINDOW ->
  tokenStep chainId token l w =
  (l, {| discoveryAttempts := discoveryAttempts w;
         storage := storage w;
         clockReads := S (clockReads w);
         rpcLog := rpcLog w |}).
Proof.
  intros Ha Hwin. unfold tokenStep, bind, lastAttemptOf, now.
  rewrite Ha. cbn.
  destruct (Z.ltb_spec (Date_now (clockReads w) - attemptedAt a)
              DISCOVERY_RETRY_WINDOW); [reflexivity | lia].
Qed.

Lemma forOf_all_within_window chainId tokens l w :
  Forall (withinWindow (discoveryAttempts w) (clockReads w) chainId) tokens ->
  exists w',
    forOf tokens (tokenStep chainId) l w = (l, w')
    /\ discoveryAttempts w' = discoveryAttempts w
    /\ storage w' = storage w
    /\ rpcLog w' = rpcLog w
    /\ clockReads w' = (length tokens + clockReads w)%nat.
Proof.
  revert w. induction tokens as [|token tokens IH]; intros w Hall.
  - exists w. now cbn.
  - apply Forall_cons in Hall as [(a & Ha & Hwin) Hall].
    cbn [forOf]. unfold bind.
    rewrite (tokenStep_within_window _ _ _ _ a Ha) by (apply Hwin; lia).
    set (w1 := {| discoveryAttempts := discoveryAttempts w;
                  storage := storage w;
                  clockReads := S (clockReads w);
                  rpcLog := rpcLog w |}).
    destruct (IH w1) as (w' & Hrun & Hat & Hst & Hlog & Hclk).
    { eapply Forall_impl; [exact Hall |].
      intros t (b & Hb & Hbw). exists b. split; [exact Hb |].
      intros k Hk. apply Hbw. cbn in Hk. lia. }
    exists w'. split; [exact Hrun |].
    cbn in Hat, Hst, Hlog, Hclk. cbn [length].
    repeat split; try assumption. lia.
Qed.

End DiscoveryRuns.

(** ** What a discovery run keeps true *)

Section DiscoveryInvariants.
Import JS Discovery.
Context `{EthersAdapter} `{Clock}.

(** A property [P] of registries that insertions at the four fee tiers
    keep, and a property [Q] of request histories that probe requests
    keep. *)
Variable P : PoolRegistry -> Prop.
Variable Q : list RpcCall -> Prop.
Hypothesis P_insert :
  forall registry poolAddress poolState fee,
    fee ∈ FEE_TIERS -> P registry ->
    P (addPoolToRegistry registry poolAddress poolState (Some fee)).
Hypothesis Q_request :
  forall log c, probeFeeOk c -> Q log -> Q (log ++ [c])%list.

Local Abbreviation holds := (fun (l : Locals) (w : World) =>
  P (poolRegistry l) /\ Q (rpcLog w)).

Lemma FEE_TIERS_nonzero fee : fee ∈ FEE_TIERS -> fee <> 0.
Proof.
  unfold FEE_TIERS. intros Hin.
  repeat (apply elem_of_cons in Hin as [-> | Hin]; [lia |]).
  inversion Hin.
Qed.

Lemma probe_keeps token chainId baseToken fee registry w :
  fee ∈ FEE_TIERS -> P registry -> Q (rpcLog w) ->
  P (probe token chainId baseToken fee registry w).1.1
  /\ Q (rpcLog (probe token chainId baseToken fee registry w).2).
Proof.
  intros Hfee HP HQ.
  assert (Hok : forall a b, probeFeeOk (GetPoolAddress a b chainId fee)).
  { intros a b. split; [exact Hfee | now apply FEE_TIERS_nonzero]. }
  unfold probe, bind, callGetPoolAddress, callGetPoolState, history, logCall,
    ret, bind. cbn.
  destruct (getPoolAddress _ _ _ _ _) as [[[|c poolAddress] |] |]; cbn;
    try (split; [exact HP | apply Q_request; [apply Hok | exact HQ]]).
  destruct (getPoolState _ _ _) as [poolState |]; cbn.
  - split; [now apply P_insert |].
    apply Q_request; [exact I |]. apply Q_request; [apply Hok | exact HQ].
  - split; [exact HP |].
    apply Q_request; [exact I |]. apply Q_request; [apply Hok | exact HQ].
Qed.

Lemma probeStep_keeps token chainId baseToken fee l w :
  fee ∈ FEE_TIERS -> holds l w ->
  holds (probeStep token chainId baseToken fee l w).1
        (probeStep token chainId baseToken fee l w).2.
Proof.
  intros Hfee [HP HQ]. unfold probeStep, bind.
  pose proof (probe_keeps token chainId baseToken fee (poolRegistry l) w
                Hfee HP HQ) as Hprobe.
  destruct (probe token chainId baseToken fee (poolRegistry l) w)
    as [[registry found] w'].
  exact Hprobe.
Qed.

Lemma discoverToken_keeps token chainId l w :
  holds l w ->
  holds (discoverToken token chainId l w).1 (discoverToken token chainId l w).2.
Proof.
  intros Hl. unfold discoverToken, bind.
  match goal with
  | |- context [forOf ?bs ?body ?l0 w] =>
      pose proof (forOf_invariant holds bs body) as Hloop;
      specialize (Hloop
        (fun baseToken s w0 _ Hs =>
           forOf_invariant holds FEE_TIERS
             (probeStep token chainId baseToken)
             (fun fee s1 w1 Hfee Hs1 =>
                probeStep_keeps token chainId baseToken fee s1 w1 Hfee Hs1)
             s w0 Hs)
        l0 w Hl);
      destruct (forOf bs body l0 w) as [l1 w1]
  end.
  unfold now, recordAttempt, ret. cbn [fst snd rpcLog] in Hloop |- *.
  exact Hloop.
Qed.

Lemma tokenStep_keeps chainId token l w :
  holds l w ->
  holds (tokenStep chainId token l w).1 (tokenStep chainId token l w).2.
Proof.
  intros Hl. unfold tokenStep, bind, lastAttemptOf.
  destruct (discoveryAttempts w !! attemptKey token chainId) as [a |];
    [| now apply discoverToken_keeps].
  unfold now. cbn.
  destruct (_ <? _); [exact Hl |].
  now apply discoverToken_keeps.
Qed.

(** A run keeps [P] of the chain's stored registry and [Q] of the
    history. *)
Lemma discovery_invariant tokens chainId w :
  P (storedRegistry w chainId) -> Q (rpcLog w) ->
  P (storedRegistry (discoverPoolsForTokens tokens chainId w).2 chainId)
  /\ Q (rpcLog (discoverPoolsForTokens tokens chainId w).2).
Proof.
  intros HP HQ.
  unfold discoverPoolsForTokens, bind, getPoolRegistry, savePoolRegistry, ret.
  match goal with
  | |- context [forOf tokens ?body ?l0 w] =>
      pose proof (forOf_invariant holds tokens body
                    (fun token s w0 _ Hs => tokenStep_keeps chainId token s w0 Hs)
                    l0 w (conj HP HQ)) as Hloop;
      destruct (forOf tokens body l0 w) as [l1 w1]
  end.
  cbn in *. unfold storedRegistry. cbn. rewrite lookup_insert_eq. exact Hloop.
Qed.

End DiscoveryInvariants.

Section DiscoveryResults.
Import JS Discovery.
Context `{EthersAdapter} `{Clock}.

(** A run started on a registry whose routes all lead to known pools ends
    on such a registry. *)
Lemma discovery_keeps_routesClosed tokens chainId w :
  routesClosed (storedRegistry w chainId) ->
  routesClosed
    (storedRegistry (discoverPoolsForTokens tokens chainId w).2 chainId).
Proof.
  intros Hclosed.
  apply (discovery_invariant routesClosed (fun _ => True)); auto.
  intros registry poolAddress poolState fee _ Hreg.
  now apply addPoolToRegistry_closed.
Qed.

(** C10: every pool of the chain's registry after a run either was there,
    unchanged, before the run, or is a v3 pool with one of the four fee
    tiers and weight 2; and the run continues the history with requests
    that, when they ask for a pool address, carry one of the four fee
    tiers, none of which is zero, so no insertion of the run takes the v2
    branch. *)
Theorem C10_discovered_pools_are_v3 tokens chainId w :
  let w' := (discoverPoolsForTokens tokens chainId w).2 in
  (forall k m,
     pools (storedRegistry w' chainId) !! k = Some m ->
     pools (storedRegistry w chainId) !! k = Some m \/ discoveredShape m)
  /\ continues probeFeeOk (rpcLog w) (rpcLog w').
Proof.
  apply (discovery_invariant
           (fun registry => forall k m,
              pools registry !! k = Some m ->
              pools (storedRegistry w chainId) !! k = Some m
              \/ discoveredShape m)
           (continues probeFeeOk (rpcLog w))).
  - intros registry poolAddress poolState fee Hfee Hreg k m.
    rewrite addPoolToRegistry_pools.
    case_decide; [| apply Hreg].
    intros [= <-]. right.
    assert (Htruthy : truthyNumber (Some fee) = true).
    { cbn. apply negb_true_iff, Z.eqb_neq. now apply FEE_TIERS_nonzero. }
    unfold discoveredShape. cbn [dexType feeTier weight].
    cbn in Htruthy. rewrite Htruthy. eauto.
  - intros log c Hc Hlog. now apply continues_snoc.
  - auto.
  - apply continues_refl.
Qed.

End DiscoveryResults.

Lemma C6_insertion_invariant_witness :
  let state :=
    {| Discovery.state_token0 := "0xA0b86991c6218b36c1d19D4a2e9Eb0cE3606eB48";
       Discovery.state_token1 := "0xC02aaA39b223FE8D0A0e5C4F27eAD9083C756Cc2" |} in
  let registry' :=
    Discovery.addPoolToRegistry Discovery.emptyRegistry "0xPool" state
      (Some 3000) in
  Discovery.routesClosed registry'
  /\ is_Some (Discovery.pools registry' !! "0xPool")
  /\ Discovery.hasRoute registry'
       "0xa0b86991c6218b36c1d19d4a2e9eb0ce3606eb48" "0xPool"
       "0xC02aaA39b223FE8D0A0e5C4F27eAD9083C756Cc2"
  /\ Discovery.hasRoute registry'
       "0xc02aaa39b223fe8d0a0e5c4f27ead9083c756cc2" "0xPool"
       "0xA0b86991c6218b36c1d19D4a2e9Eb0cE3606eB48".
Proof.
  intros state registry'.
  apply (C6_insertion_invariant Discovery.emptyRegistry "0xPool" state
           (Some 3000)).
  intros k l x Hl. cbn in Hl. rewrite lookup_empty in Hl. discriminate.
Defined.

Lemma C10_discovered_pools_are_v3_witness :
  let w' :=
    (@Discovery.discoverPoolsForTokens Examples.onePoolChain
       Examples.clockAt60s [Examples.wethToken] 1 Examples.emptyWorld).2 in
  exists m,
    Discovery.pools (Discovery.storedRegistry w' 1)
      !! "0x8ad599c3A0ff1De082011EFDDc58f1908eb6e6D8" = Some m
    /\ Discovery.discoveredShape m.
Proof.
  intros w'.
  destruct (Discovery.pools (Discovery.storedRegistry w' 1)
              !! "0x8ad599c3A0ff1De082011EFDDc58f1908eb6e6D8")
    as [m |] eqn:Hm; [| vm_compute in Hm; discriminate].
  exists m. split; [reflexivity |].
  destruct (proj1 (@C10_discovered_pools_are_v3 Examples.onePoolChain
                     Examples.clockAt60s [Examples.wethToken] 1
                     Examples.emptyWorld) _ _ Hm) as [Hold | Hshape].
  - vm_compute in Hold. discriminate.
  - exact Hshape.
Defined.

(** ** Two calls in a row *)

Section SecondCall.
Import JS Discovery.
Context `{EthersAdapter} `{Clock}.

(** Probing neither reads the clock nor touches the attempts or the
    storage. *)
Lemma probeStep_frame token chainId baseToken fee l w :
  let w' := (probeStep token chainId baseToken fee l w).2 in
  discoveryAttempts w' = discoveryAttempts w
  /\ clockReads w' = clockReads w
  /\ storage w' = storage w.
Proof.
  unfold probeStep, bind, probe, callGetPoolAddress, callGetPoolState,
    history, logCall, ret, bind. cbn.
  destruct (getPoolAddress _ _ _ _ _) as [[[|c poolAddress] |] |]; cbn; auto.
  destruct (getPoolState _ _ _) as [poolState |]; cbn; auto.
Qed.

Lemma probes_frame token chainId (baseTokens : list string) l w :
  let w' :=
    (forOf baseTokens
       (fun baseToken => forOf FEE_TIERS (probeStep token chainId baseToken))
       l w).2 in
  discoveryAttempts w' = discoveryAttempts w
  /\ clockReads w' = clockReads w
  /\ storage w' = storage w.
Proof.
  apply (forOf_invariant
           (fun (_ : Locals) w' =>
              discoveryAttempts w' = discoveryAttempts w
              /\ clockReads w' = clockReads w
              /\ storage w' = storage w)); [| auto].
  intros baseToken s w0 _ Hw0.
  apply (forOf_invariant
           (fun (_ : Locals) w' =>
              discoveryAttempts w' = discoveryAttempts w
              /\ clockReads w' = clockReads w
              /\ storage w' = storage w)); [| exact Hw0].
  intros fee s1 w1 _ (Hat & Hclk & Hst).
  destruct (probeStep_frame token chainId baseToken fee s1 w1)
    as (Hat' & Hclk' & Hst').
  repeat split; congruence.
Qed.

(** A discovery that is carried out records the attempt under the token's
    key, at the time read after the last probe. *)
Lemma discoverToken_records token chainId l w :
  let w' := (discoverToken token chainId l w).2 in
  exists a,
    discoveryAttempts w' = <[attemptKey token chainId := a]> (discoveryAttempts w)
    /\ attemptedAt a = Date_now (clockReads w)
    /\ clockReads w' = S (clockReads w).
Proof.
  unfold discoverToken, bind.
  match goal with
  | |- context [forOf ?bs ?body ?l0 w] =>
      pose proof (probes_frame token chainId bs l0 w) as Hframe;
      destruct (forOf bs body l0 w) as [l1 w1]
  end.
  cbn in Hframe. destruct Hframe as (Hat & Hclk & _).
  unfold now, recordAttempt, ret. cbn.
  eexists. rewrite Hat, Hclk. repeat split; reflexivity.
Qed.

Lemma first_call_records token chainId w :
  discoveryAttempts w !! attemptKey token chainId = None ->
  let w1 := (discoverPoolsForTokens [token] chainId w).2 in
  exists a,
    discoveryAttempts w1 !! attemptKey token chainId = Some a
    /\ attemptedAt a = Date_now (clockReads w)
    /\ clockReads w1 = S (clockReads w).
Proof.
  intros Hnone.
  unfold discoverPoolsForTokens, bind, getPoolRegistry, savePoolRegistry, ret.
  cbn [forOf]. unfold bind, tokenStep, bind, lastAttemptOf, ret.
  rewrite Hnone.
  match goal with
  | |- context [discoverToken token chainId ?l0 w] =>
      destruct (discoverToken_records token chainId l0 w)
        as (a & Hat & Hwhen & Hclk);
      destruct (discoverToken token chainId l0 w) as [l1 w']
  end.
  cbn in *. exists a. rewrite Hat, lookup_insert_eq. auto.
Qed.

(** A first call for a token without an attempt on record, then a second
    call while the clock stays inside the window of the time recorded: the
    second call sends nothing, records nothing, and leaves the registry as
    the first call left it. *)
Lemma second_call_is_skipped token chainId w :
  discoveryAttempts w !! attemptKey token chainId = None ->
  (forall k, (clockReads w < k)%nat ->
     Date_now k - Date_now (clockReads w) < DISCOVERY_RETRY_WINDOW) ->
  let w1 := (discoverPoolsForTokens [token] chainId w).2 in
  let '(found, w2) := discoverPoolsForTokens [token] chainId w1 in
  found = 0
  /\ rpcLog w2 = rpcLog w1
  /\ discoveryAttempts w2 = discoveryAttempts w1
  /\ storedRegistry w2 chainId = storedRegistry w1 chainId.
Proof.
  intros Hnone Hclock w1.
  destruct (first_call_records token chainId w Hnone)
    as (a & Ha & Hwhen & Hclk). fold w1 in Ha, Hclk.
  assert (Hin : withinWindow (discoveryAttempts w1) (clockReads w1)
                  chainId token).
  { exists a. split; [exact Ha |].
    intros k Hk. rewrite Hwhen. apply Hclock. lia. }
  clearbody w1.
  unfold discoverPoolsForTokens, bind, getPoolRegistry, savePoolRegistry, ret.
  destruct (forOf_all_within_window chainId [token]
              {| poolRegistry := default emptyRegistry (storage w1 !! chainId);
                 poolsFoundForToken := 0;
                 poolsDiscoveredThisBatch := 0 |} w1)
    as (w2 & -> & Hat & Hst & Hlog & _).
  { constructor; [exact Hin | constructor]. }
  cbn. repeat split; try assumption.
  unfold storedRegistry. cbn. now rewrite lookup_insert_eq.
Qed.

End SecondCall.

(** ** A token inside its retry window, in any call *)

Section RetryWindow.
Import JS Discovery.
Context `{EthersAdapter} `{Clock}.

(** The requests of a probe for a token are not requests for a token with
    another attempt key. *)
Lemma probeStep_requests key token chainId baseToken fee l w log :
  attemptKey token chainId <> key ->
  continues (fun c => ~ probesKey key c) log (rpcLog w) ->
  continues (fun c => ~ probesKey key c) log
    (rpcLog (probeStep token chainId baseToken fee l w).2).
Proof.
  intros Hkey Hlog.
  unfold probeStep, bind, probe, callGetPoolAddress, callGetPoolState,
    history, logCall, ret, bind. cbn.
  destruct (getPoolAddress _ _ _ _ _) as [[[|c poolAddress] |] |]; cbn;
    try (apply continues_snoc; [exact Hkey | exact Hlog]).
  destruct (getPoolState _ _ _) as [poolState |]; cbn;
    (apply continues_snoc; [intros [] |]);
    (apply continues_snoc; [exact Hkey | exact Hlog]).
Qed.

(** What the iterations of a call keep true about a token [T] that is
    inside its retry window when the call starts: its attempt stays on
    record untouched, the clock only moves on, and no request is sent for
    it. *)
Lemma tokenStep_other_token T chainId a0 w0 token l w :
  (forall k, (clockReads w0 <= k)%nat ->
     Date_now k - attemptedAt a0 < DISCOVERY_RETRY_WINDOW) ->
  discoveryAttempts w !! attemptKey T chainId = Some a0
  /\ (clockReads w0 <= clockReads w)%nat
  /\ continues (fun c => ~ probesKey (attemptKey T chainId) c)
       (rpcLog w0) (rpcLog w) ->
  let w' := (tokenStep chainId token l w).2 in
  discoveryAttempts w' !! attemptKey T chainId = Some a0
  /\ (clockReads w0 <= clockReads w')%nat
  /\ continues (fun c => ~ probesKey (attemptKey T chainId) c)
       (rpcLog w0) (rpcLog w').
Proof.
  intros Hwin (Hat & Hclk & Hlog).
  destruct (decide (attemptKey token chainId = attemptKey T chainId))
    as [Hsame | Hother].
  - rewrite (tokenStep_within_window chainId token l w a0).
    + cbn. repeat split; [exact Hat | lia | exact Hlog].
    + now rewrite Hsame.
    + now apply Hwin.
  - assert (Hdiscover : forall l0 w1,
      discoveryAttempts w1 !! attemptKey T chainId = Some a0 ->
      (clockReads w0 <= clockReads w1)%nat ->
      continues (fun c => ~ probesKey (attemptKey T chainId) c)
        (rpcLog w0) (rpcLog w1) ->
      let w' := (discoverToken token chainId l0 w1).2 in
      discoveryAttempts w' !! attemptKey T chainId = Some a0
      /\ (clockReads w0 <= clockReads w')%nat
      /\ continues (fun c => ~ probesKey (attemptKey T chainId) c)
           (rpcLog w0) (rpcLog w')).
    { intros l0 w1 Hat1 Hclk1 Hlog1.
      destruct (discoverToken_records token chainId l0 w1)
        as (a & Hrec & _ & Hclk').
      split; [| split].
      - rewrite Hrec, lookup_insert_ne by exact Hother. exact Hat1.
      - rewrite Hclk'. lia.
      - unfold discoverToken, bind.
        match goal with
        | |- context [forOf ?bs ?body ?s0 w1] =>
            pose proof (forOf_invariant
              (fun (_ : Locals) w' =>
                 continues (fun c => ~ probesKey (attemptKey T chainId) c)
                   (rpcLog w0) (rpcLog w'))
              bs body) as Hloop;
            specialize (Hloop
              (fun baseToken s w2 _ Hs =>
                 forOf_invariant
                   (fun (_ : Locals) w' =>
                      continues
                        (fun c => ~ probesKey (attemptKey T chainId) c)
                        (rpcLog w0) (rpcLog w'))
                   FEE_TIERS (probeStep token chainId baseToken)
                   (fun fee s1 w3 _ Hs1 =>
                      probeStep_requests _ token chainId baseToken fee
                        s1 w3 _ Hother Hs1)
                   s w2 Hs)
              s0 w1 Hlog1);
            destruct (forOf bs body s0 w1) as [l1 w2]
        end.
        unfold now, recordAttempt, ret. cbn [fst snd rpcLog] in Hloop |- *.
        exact Hloop. }
    unfold tokenStep, bind, lastAttemptOf.
    destruct (discoveryAttempts w !! attemptKey token chainId) as [b |];
      [| now apply Hdiscover].
    unfold now. cbn.
    destruct (_ <? _).
    + cbn. repeat split; [exact Hat | lia | exact Hlog].
    + apply Hdiscover; cbn; [exact Hat | lia | exact Hlog].
Qed.

End RetryWindow.

Section RetryWindowClaim.
Import JS Discovery.
Context `{EthersAdapter} `{Clock}.

(** C5: let [T] have an attempt on record that is less than the retry
    window old at every clock reading of a call.  Then the call sends no
    request for a pool of [T] and leaves the attempt recorded for [T] (so
    its [attemptedAt]) as it is, whatever that attempt found.  If that
    holds of every token of the call, the call sends no request at all,
    leaves all recorded attempts and the registry of the chain, and those of
    the other chains, as they are, and answers 0. *)
Theorem C5_retry_window_noop tokens chainId w T :
  withinWindow (discoveryAttempts w) (clockReads w) chainId T ->
  let '(found, w') := discoverPoolsForTokens tokens chainId w in
  continues (fun c => ~ probesKey (attemptKey T chainId) c)
    (rpcLog w) (rpcLog w')
  /\ discoveryAttempts w' !! attemptKey T chainId
     = discoveryAttempts w !! attemptKey T chainId
  /\ (Forall (withinWindow (discoveryAttempts w) (clockReads w) chainId)
         tokens ->
       found = 0
       /\ rpcLog w' = rpcLog w
       /\ discoveryAttempts w' = discoveryAttempts w
       /\ storedRegistry w' chainId = storedRegistry w chainId
       /\ forall c, c <> chainId -> storage w' !! c = storage w !! c).
Proof.
  intros (a0 & Ha0 & Hwin).
  unfold discoverPoolsForTokens, bind, getPoolRegistry, savePoolRegistry, ret.
  set (l0 := {| poolRegistry := default emptyRegistry (storage w !! chainId);
                poolsFoundForToken := 0;
                poolsDiscoveredThisBatch := 0 |}).
  pose proof (forOf_invariant
    (fun (_ : Locals) w' =>
       discoveryAttempts w' !! attemptKey T chainId = Some a0
       /\ (clockReads w <= clockReads w')%nat
       /\ continues (fun c => ~ probesKey (attemptKey T chainId) c)
            (rpcLog w) (rpcLog w'))
    tokens (tokenStep chainId)
    (fun token s w1 _ Hs =>
       tokenStep_other_token T chainId a0 w token s w1 Hwin Hs)
    l0 w (conj Ha0 (conj (le_n _) (continues_refl _ _)))) as Hloop.
  destruct (forOf tokens (tokenStep chainId) l0 w) as [l1 w1] eqn:Hrun.
  cbn in Hloop. destruct Hloop as (Hat & _ & Hlog). cbn.
  split; [exact Hlog |]. split; [now rewrite Hat, Ha0 |].
  intros Hall.
  destruct (forOf_all_within_window chainId tokens l0 w Hall)
    as (w2 & Hrun2 & Hat2 & Hst2 & Hlog2 & _).
  rewrite Hrun in Hrun2. injection Hrun2 as -> ->.
  repeat split; try assumption.
  - unfold storedRegistry. cbn. now rewrite lookup_insert_eq.
  - intros c Hc. rewrite lookup_insert_ne by congruence. now rewrite Hst2.
Qed.

End RetryWindowClaim.

Lemma C5_retry_window_noop_witness :
  let '(found, w') :=
    @Discovery.discoverPoolsForTokens Examples.onePoolChain
      Examples.clockAt60s [Examples.wethToken] 1 Examples.attemptedWorld in
  found = 0
  /\ Discovery.rpcLog w' = []
  /\ Discovery.discoveryAttempts w'
     = Discovery.discoveryAttempts Examples.attemptedWorld
  /\ Discovery.storedRegistry w' 1 = Discovery.emptyRegistry.
Proof.
  assert (Hin : @Discovery.withinWindow Examples.clockAt60s
                  (Discovery.discoveryAttempts Examples.attemptedWorld)
                  (Discovery.clockReads Examples.attemptedWorld) 1
                  Examples.wethToken).
  { eexists. split; [reflexivity |]. intros k _. vm_compute. reflexivity. }
  pose proof (@C5_retry_window_noop Examples.onePoolChain Examples.clockAt60s
                [Examples.wethToken] 1 Examples.attemptedWorld
                Examples.wethToken Hin) as Hnoop.
  destruct (@Discovery.discoverPoolsForTokens Examples.onePoolChain
              Examples.clockAt60s [Examples.wethToken] 1
              Examples.attemptedWorld) as [found w'].
  destruct Hnoop as (_ & _ & Hall).
  destruct Hall as (Hfound & Hlog & Hat & Hreg & _).
  { constructor; [exact Hin | constructor]. }
  repeat split; assumption.
Defined.

(** ** The scheduler tick *)

Section SchedulerFacts.
Import JS Scheduler.
Context `{PoolController} `{MulticallEngine} `{Conversions}.

(** The block-aware branch: a successful result at the block the pool was
    last seen at, if not block 0, leaves every pool as it is (so its
    price, its tier and also its next refresh) and counts as a saving, not
    as a computation. *)
Lemma processResult_same_block now s result d r p :
  success result = true ->
  data result = Some d ->
  findRef (poolAddress result) (aliveSet s) = Some r ->
  aliveSet s !! r = Some p ->
  blockNumber result = lastBlockSeen p ->
  blockNumber result <> 0 ->
  processResult now s result =
  {| aliveSet := aliveSet s;
     blockAwareSavings := blockAwareSavings s + 1;
     computationsPerformed := computationsPerformed s |}.
Proof.
  intros Hs Hd Hr Hp Hblock Hnz. unfold processResult.
  rewrite Hs, Hd, Hr. cbn. rewrite Hp.
  rewrite (proj2 (Z.eqb_eq _ _) Hblock).
  now rewrite (proj2 (Z.eqb_neq _ _) Hnz).
Qed.

(** The failure branch: a result with [success = false] changes nothing. *)
Lemma processResult_failed now s result :
  success result = false -> processResult now s result = s.
Proof. intros Hs. unfold processResult. now rewrite Hs. Qed.

Lemma mutate_lookup r f alive i :
  mutate r f alive !! i =
  if decide (r = i) then f <$> (alive !! i) else alive !! i.
Proof.
  unfold mutate. case_decide as Hri.
  - subst i. destruct (alive !! r) as [p |] eqn:Hp.
    + rewrite list_lookup_insert_eq; [reflexivity |].
      now apply lookup_lt_Some in Hp.
    + now rewrite Hp.
  - destruct (alive !! r) as [p |]; [| reflexivity].
    now rewrite list_lookup_insert_ne.
Qed.

(** The retry loop of the [catch] block sets the next refresh of the pools
    due, and of those only. *)
Lemma retry_loop_lookup t poolsDue alive i :
  fold_left (fun a r => mutate r (setNextRefresh t) a) poolsDue alive !! i =
  if decide (i ∈ poolsDue) then setNextRefresh t <$> (alive !! i)
  else alive !! i.
Proof.
  revert alive. induction poolsDue as [|r poolsDue IH]; intros alive.
  - cbn. case_decide as Hin; [inversion Hin | reflexivity].
  - cbn [fold_left]. rewrite IH, mutate_lookup.
    destruct (decide (r = i)) as [-> | Hne].
    + destruct (alive !! i) as [p |]; cbn; repeat case_decide;
        try reflexivity; exfalso; set_solver.
    + repeat case_decide; try reflexivity; exfalso; set_solver.
Qed.

(** When [executeBatches] rejects, every pool due is retried 5 s later and
    keeps its tier, and no exception leaves [executeForChain]. *)
Lemma executeForChain_rejected now chainId_ poolsDue alive :
  runBatches chainId_ (omap (fun r => alive !! r) poolsDue) = ExecuteThrows ->
  (executeForChain now chainId_ poolsDue alive).2 = false
  /\ forall r p,
       r ∈ poolsDue -> alive !! r = Some p ->
       (executeForChain now chainId_ poolsDue alive).1 !! r
       = Some (setNextRefresh (now + 5000) p).
Proof.
  intros Hthrow. unfold executeForChain.
  destruct poolsDue as [|r0 rs]; [split; [reflexivity | intros r p Hr; inversion Hr] |].
  rewrite Hthrow. split; [reflexivity |].
  intros r p Hr Hp. cbn [fst]. rewrite retry_loop_lookup.
  case_decide; [| contradiction]. now rewrite Hp.
Qed.

End SchedulerFacts.

Section SchedulerDefects.
Import JS Scheduler.
Context `{PoolController} `{Conversions}.

(** C2: on a successful result at the block the pool was last seen at, the
    scheduler leaves the pool as it is: price and tier are unchanged and
    nothing is computed, but the next refresh is not moved to
    [now + tierInterval tier]; the pool stays due. *)
Theorem C2_skip_leaves_pool_due :
  let now := 20000 in
  let run :=
    @executeForChain _ (Examples.engineAnswering [Examples.sameBlockResult]) _
      now 1 [0%nat] [Examples.duePool] in
  run = ([Examples.duePool], false)
  /\ nextRefresh Examples.duePool = 0
  /\ nextRefresh Examples.duePool
     <> now + tierInterval (tier Examples.duePool).
Proof.
  cbv zeta. split; [| split; [reflexivity | discriminate]].
  unfold executeForChain. cbn [runBatches Examples.engineAnswering fold_left].
  erewrite processResult_same_block; cbn; try reflexivity. discriminate.
Qed.

(** C3: on a result with [success = false] the scheduler only logs: the
    pool keeps its tier, no exception leaves the function, but the next
    refresh is not moved to [now + 5 s]. *)
Theorem C3_failed_result_not_retried :
  let now := 20000 in
  let run :=
    @executeForChain _ (Examples.engineAnswering [Examples.failedResult]) _
      now 1 [0%nat] [Examples.duePool] in
  run = ([Examples.duePool], false)
  /\ nextRefresh Examples.duePool = 0
  /\ nextRefresh Examples.duePool <> now + 5000.
Proof.
  cbv zeta. split; [| split; [reflexivity | discriminate]].
  unfold executeForChain. cbn [runBatches Examples.engineAnswering fold_left].
  now rewrite processResult_failed.
Qed.

End SchedulerDefects.

(** * Further properties of the sources *)

(** ** Windows of the merged list *)

Section Windows.
Import JS Snapshot.
Context `{Pricing} `{StaticTokens}.

(** For an offset and an end that are not negative, [slice] is [take]
    after [drop]. *)
Lemma slice_take_drop {A} (l : list A) (start end_ : Z) :
  0 <= start -> 0 <= end_ ->
  slice l start end_ =
  take (Z.to_nat end_ - Z.to_nat start) (drop (Z.to_nat start) l).
Proof.
  intros Hs He. unfold slice, relativeIndex.
  destruct (Z.ltb_spec start 0); [exfalso; lia |].
  destruct (Z.ltb_spec end_ 0); [exfalso; lia |].
  destruct (Z.le_gt_cases (Z.of_nat (length l)) start) as [Hout | Hin].
  - rewrite (Z.min_r start) by lia. rewrite Nat2Z.id, drop_all, take_nil.
    rewrite drop_ge by lia. now rewrite take_nil.
  - rewrite (Z.min_l start) by lia.
    destruct (Z.le_gt_cases end_ (Z.of_nat (length l))) as [Hle | Hgt].
    + rewrite (Z.min_l end_) by lia. f_equal. lia.
    + rewrite (Z.min_r end_) by lia.
      rewrite !take_ge; [reflexivity | |]; rewrite length_drop; lia.
Qed.

Lemma windowedMetadata_slice svc chainKey offset limit :
  windowedMetadata svc chainKey offset limit =
  slice (mergedList svc chainKey) offset (offset + limit).
Proof. reflexivity. Qed.

(** The number of entries of an answer, for an offset and a limit that
    are not negative: the limit, cut at the end of the merged list. *)
Theorem snapshot_entry_count svc now chain_ offset limit adapter :
  adapters svc !! toLowerCase chain_ = Some adapter ->
  0 <= offset -> 0 <= limit ->
  exists snapshot svc',
    generateSnapshot svc now chain_ offset limit = inr (snapshot, svc')
    /\ Z.of_nat (length (entries snapshot)) =
       Z.min limit
         (Z.max 0 (Z.of_nat (length (mergedList svc (toLowerCase chain_)))
                   - offset)).
Proof.
  intros Had Ho Hl.
  destruct (generateSnapshot_supported svc now chain_ offset limit adapter Had)
    as [svc' Hgen].
  eexists _, svc'. split; [exact Hgen |].
  cbn [entries]. rewrite length_map, windowedMetadata_slice.
  rewrite slice_take_drop by lia.
  rewrite length_take, length_drop. lia.
Qed.

(** Consecutive pages neither overlap nor leave a gap: the window of [a]
    tokens at [offset] followed by the window of [b] tokens at
    [offset + a] is the window of [a + b] tokens at [offset]. *)
Theorem consecutive_windows svc chainKey offset a b :
  0 <= offset -> 0 <= a -> 0 <= b ->
  (windowedMetadata svc chainKey offset a
   ++ windowedMetadata svc chainKey (offset + a) b)%list
  = windowedMetadata svc chainKey offset (a + b).
Proof.
  intros Ho Ha Hb. rewrite !windowedMetadata_slice.
  rewrite !slice_take_drop by lia.
  replace (Z.to_nat (offset + a) - Z.to_nat offset)%nat with (Z.to_nat a) by lia.
  replace (Z.to_nat (offset + a + b) - Z.to_nat (offset + a))%nat
    with (Z.to_nat b) by lia.
  replace (Z.to_nat (offset + (a + b)) - Z.to_nat offset)%nat
    with (Z.to_nat a + Z.to_nat b)%nat by lia.
  replace (Z.to_nat (offset + a)) with (Z.to_nat offset + Z.to_nat a)%nat by lia.
  rewrite <- drop_drop. apply take_take_drop.
Qed.

(** A negative limit is not rejected: with offset 0 and limit [-n] the
    window is the merged list without its last [n] tokens. *)
Theorem negative_limit_window svc chainKey limit :
  limit < 0 ->
  windowedMetadata svc chainKey 0 limit =
  take (Z.to_nat (Z.of_nat (length (mergedList svc chainKey)) + limit))
       (mergedList svc chainKey).
Proof.
  intros Hneg. rewrite windowedMetadata_slice.
  unfold slice, relativeIndex. cbn [Z.ltb Z.compare].
  rewrite Z.add_0_l.
  destruct (Z.ltb_spec limit 0); [| lia].
  rewrite Z.min_l by lia. cbn [Z.to_nat drop].
  f_equal. lia.
Qed.

(** A window that lies inside the static list does not depend on the
    token lists that were fetched. *)
Theorem static_window_stable svc chainKey offset limit :
  0 <= offset -> 0 <= limit ->
  offset + limit
    <= Z.of_nat (length (default [] (SUPPORTED_TOKENS !! chainKey))) ->
  windowedMetadata svc chainKey offset limit =
  slice (default [] (SUPPORTED_TOKENS !! chainKey)) offset (offset + limit).
Proof.
  intros Ho Hl Hin. rewrite windowedMetadata_slice.
  rewrite !slice_take_drop by lia.
  unfold mergedList, allMetadata.
  set (s := default [] (SUPPORTED_TOKENS !! chainKey)) in *.
  rewrite drop_app_le by lia. rewrite take_app_le; [reflexivity |].
  rewrite length_drop. lia.
Qed.

End Windows.

Lemma snapshot_entry_count_witness :
  exists snapshot svc',
    @Snapshot.generateSnapshot Examples.pricing Examples.staticTokens
      Examples.wiredService 1000 "ethereum" 1 25 = inr (snapshot, svc')
    /\ Z.of_nat (length (Snapshot.entries snapshot)) = 1.
Proof.
  destruct (@snapshot_entry_count Examples.pricing Examples.staticTokens
              Examples.wiredService 1000 "ethereum" 1 25
              (default Examples.twoPoolAdapter
                 (@Snapshot.MockAdapter Examples.staticTokens "ethereum")))
    as (snapshot & svc' & Hgen & Hlen); [vm_compute; reflexivity | lia | lia |].
  exists snapshot, svc'. split; [exact Hgen |]. rewrite Hlen.
  vm_compute. reflexivity.
Defined.

Lemma consecutive_windows_witness :
  (@Snapshot.windowedMetadata Examples.staticTokens Examples.wiredService
     "ethereum" 0 1
   ++ @Snapshot.windowedMetadata Examples.staticTokens Examples.wiredService
        "ethereum" (0 + 1) 1)%list
  = [Examples.USDC; Examples.WETH].
Proof.
  rewrite (@consecutive_windows Examples.staticTokens Examples.wiredService
             "ethereum" 0 1 1) by lia.
  vm_compute. reflexivity.
Defined.

Lemma negative_limit_window_witness :
  @Snapshot.windowedMetadata Examples.staticTokens Examples.wiredService
    "ethereum" 0 (Snapshot.parseLimit
                    (Examples.request "ethereum" None (Some "-1")))
  = [Examples.USDC].
Proof.
  rewrite (@negative_limit_window Examples.staticTokens Examples.wiredService
             "ethereum" _) by (vm_compute; reflexivity).
  vm_compute. reflexivity.
Defined.

Lemma static_window_stable_witness :
  @Snapshot.windowedMetadata Examples.staticTokens
    (Snapshot.refreshDynamicTokens (Some [Examples.weth_lower]) None
       Examples.wiredService)
    "ethereum" 0 2
  = [Examples.USDC; Examples.WETH].
Proof.
  rewrite (@static_window_stable Examples.staticTokens _ "ethereum" 0 2);
    [vm_compute; reflexivity | lia | lia | vm_compute; discriminate].
Defined.

(** ** The cache of the snapshot service *)

Section SnapshotCache.
Import JS Snapshot.
Context `{Pricing} `{StaticTokens}.

Lemma append_cancel (p a b : string) : (p ++ a = p ++ b)%string -> a = b.
Proof.
  induction p as [|c p IH]; cbn; [auto |]. intros [= Heq]. now apply IH.
Qed.

Lemma cacheKey_inj chainKey m1 m2 :
  cacheKey chainKey m1 = cacheKey chainKey m2 -> keyOf m1 = keyOf m2.
Proof.
  unfold cacheKey, keyOf. intros Heq.
  apply append_cancel in Heq. now injection Heq.
Qed.

(** Storing the entries of other tokens leaves a key as it is. *)
Lemma store_lookup_other c0 now chainKey adapter metas meta :
  keyOf meta ∉ map keyOf metas ->
  forall c,
    fold_left (storeEntry c0 now chainKey adapter) metas c
      !! cacheKey chainKey meta
    = c !! cacheKey chainKey meta.
Proof.
  induction metas as [|m r IH]; intros Hfresh c; [reflexivity |].
  cbn [fold_left]. rewrite IH by (cbn [map] in Hfresh; set_solver).
  unfold storeEntry. destruct (freshCached c0 now (cacheKey chainKey m));
    [reflexivity |].
  apply lookup_insert_ne. intros Heq. apply cacheKey_inj in Heq.
  apply Hfresh. cbn [map]. rewrite Heq. left.
Qed.

(** After a request every token of the window that had no fresh entry has
    its fresh entry in the cache, stamped with the time of the request. *)
Lemma store_lookup_missed c0 now chainKey adapter metas :
  NoDup (map keyOf metas) ->
  Forall (fun m => freshCached c0 now (cacheKey chainKey m) = None) metas ->
  forall c meta,
    meta ∈ metas ->
    fold_left (storeEntry c0 now chainKey adapter) metas c
      !! cacheKey chainKey meta
    = Some {| timestamp := now; entry := freshEntry adapter meta |}.
Proof.
  induction metas as [|m r IH]; intros Hnd Hmiss c meta Hin;
    [inversion Hin |].
  cbn [map] in Hnd. apply NoDup_cons in Hnd as [Hfresh Hnd].
  apply Forall_cons in Hmiss as [Hm Hmiss].
  cbn [fold_left].
  apply elem_of_cons in Hin as [-> | Hin]; [| now apply IH].
  rewrite store_lookup_other by exact Hfresh.
  unfold storeEntry. rewrite Hm. apply lookup_insert_eq.
Qed.

Lemma store_all_hit c0 now chainKey adapter metas :
  Forall (fun m => is_Some (freshCached c0 now (cacheKey chainKey m))) metas ->
  forall c, fold_left (storeEntry c0 now chainKey adapter) metas c = c.
Proof.
  induction 1 as [|m r [e He] _ IH]; intros c; [reflexivity |].
  cbn [fold_left]. unfold storeEntry at 2. rewrite He. apply IH.
Qed.

(** Warm read.  After a request that computed every entry of its window
    (no token of the window had a fresh cache entry, no two share an
    address), the same request made less than 10 s later is answered with
    the same entries, and leaves the service as it is. *)
Theorem warm_read_same_entries svc now now' chain_ offset limit snap1 svc1 :
  let window := windowedMetadata svc (toLowerCase chain_) offset limit in
  generateSnapshot svc now chain_ offset limit = inr (snap1, svc1) ->
  NoDup (map keyOf window) ->
  Forall (fun m =>
            freshCached (cache svc) now (cacheKey (toLowerCase chain_) m)
            = None) window ->
  now' - now < 10000 ->
  generateSnapshot svc1 now' chain_ offset limit =
  inr ({| snapshot_timestamp := now';
          chain := chain snap1;
          entries := entries snap1 |}, svc1).
Proof.
  intros window Hgen Hnd Hmiss Hsoon.
  unfold generateSnapshot in Hgen.
  destruct (adapters svc !! toLowerCase chain_) as [adapter |] eqn:Had;
    [| discriminate].
  injection Hgen as <- <-. fold window.
  unfold generateSnapshot. cbn [adapters chain entries cache dynamicTokens].
  rewrite Had.
  change (windowedMetadata _ (toLowerCase chain_) offset limit) with window.
  set (cache1 := fold_left _ window (cache svc)).
  assert (Hhit : forall m, m ∈ window ->
            freshCached cache1 now' (cacheKey (toLowerCase chain_) m)
            = Some (freshEntry adapter m)).
  { intros m Hm. unfold freshCached, cache1.
    rewrite (store_lookup_missed _ _ _ _ _ Hnd Hmiss _ _ Hm). cbn.
    destruct (Z.ltb_spec (now' - now) 10000); [reflexivity | lia]. }
  f_equal. f_equal.
  - f_equal. apply map_ext_in. intros m Hm.
    apply list_elem_of_In in Hm. unfold entryFor.
    rewrite (Hhit m Hm).
    rewrite Forall_forall in Hmiss. now rewrite (Hmiss m Hm).
  - f_equal. apply store_all_hit.
    apply Forall_forall. intros m Hm. rewrite (Hhit m Hm). eauto.
Qed.

(** Every freshly computed entry has its two derived figures. *)
Lemma freshEntry_derivedOk adapter meta : derivedOk (freshEntry adapter meta).
Proof.
  unfold freshEntry. destruct (priceAndLiquidity adapter meta) as [p l].
  split; reflexivity.
Qed.

Lemma store_keeps (P : string -> Cached -> Prop) c0 now chainKey adapter metas :
  (forall m, P (cacheKey chainKey m)
               {| timestamp := now; entry := freshEntry adapter m |}) ->
  forall c : gmap string Cached,
    (forall k v, c !! k = Some v -> P k v) ->
    forall k v,
      fold_left (storeEntry c0 now chainKey adapter) metas c !! k = Some v ->
      P k v.
Proof.
  intros Hfresh. induction metas as [|m r IH]; intros c Hc; [exact Hc |].
  cbn [fold_left]. apply IH.
  intros k v. unfold storeEntry.
  destruct (freshCached c0 now (cacheKey chainKey m)); [apply Hc |].
  rewrite lookup_insert. case_decide as Hk; [| apply Hc].
  intros [= <-]. subst k. apply Hfresh.
Qed.

(** A property of the cached values that fresh entries have is kept by
    everything that reaches the service. *)
Lemma cache_invariant (P : string -> Cached -> Prop) svc events :
  (forall chainKey adapter now m,
     P (cacheKey chainKey m)
       {| timestamp := now; entry := freshEntry adapter m |}) ->
  (forall k v, cache svc !! k = Some v -> P k v) ->
  forall k v, cache (fold_left step events svc) !! k = Some v -> P k v.
Proof.
  intros Hfresh. revert svc.
  induction events as [|ev events IH]; intros svc Hc; [exact Hc |].
  cbn [fold_left]. apply IH.
  destruct ev as [now req | eth poly]; [| exact Hc].
  cbn [step]. unfold getLatest, generateSnapshot.
  destruct (adapters svc !! toLowerCase (params_chain req)) as [adapter |].
  - cbn. apply store_keeps; [apply Hfresh | exact Hc].
  - destruct (includes _ _); exact Hc.
Qed.

(** From a new service on, every entry of every answer has its two
    derived figures: volume is liquidity times 0.15 and market cap is price
    times ten million. *)
Theorem derived_figures_always l events now req snapshot :
  body (fst (getLatest (fold_left step events (newSnapshotService l)) now req))
    = SnapshotBody snapshot ->
  Forall derivedOk (entries snapshot).
Proof.
  set (svc := fold_left step events (newSnapshotService l)).
  assert (Hc : forall k v, cache svc !! k = Some v -> derivedOk (entry v)).
  { apply (cache_invariant (fun _ v => derivedOk (entry v))).
    - intros. apply freshEntry_derivedOk.
    - intros k v. cbn. rewrite lookup_empty. discriminate. }
  unfold getLatest, generateSnapshot.
  destruct (adapters svc !! toLowerCase (params_chain req)) as [adapter |].
  - cbn. intros [= <-]. cbn [entries]. apply Forall_forall. intros e He.
    apply list_elem_of_In, in_map_iff in He as (meta & <- & _).
    unfold entryFor, freshCached.
    destruct (cache svc !! _) as [v |] eqn:Hv;
      [| apply freshEntry_derivedOk].
    destruct (_ <? _); [exact (Hc _ _ Hv) | apply freshEntry_derivedOk].
  - destruct (includes _ _); cbn; discriminate.
Qed.

Lemma prefix_empty (s : string) : String.prefix "" s = true.
Proof. now destruct s. Qed.

Lemma includes_later c s sub :
  includes s sub = true -> includes (String c s) sub = true.
Proof. intros Hs. cbn [includes]. rewrite Hs. apply orb_true_r. Qed.

Lemma includes_cacheKey chainKey m : includes (cacheKey chainKey m) ":" = true.
Proof.
  unfold cacheKey. induction chainKey as [|c r IH].
  - change (includes (String ":" (toLowerCase (address m))) ":" = true).
    now destruct (toLowerCase (address m)).
  - now apply (includes_later c).
Qed.

(** [getLatestSnapshot] finds nothing: the cache is keyed by chain, colon
    and address, so a chain name without a colon is never a key. *)
Theorem getLatestSnapshot_undefined l events chain_ :
  includes (toLowerCase chain_) ":" = false ->
  getLatestSnapshot (fold_left step events (newSnapshotService l)) chain_
  = None.
Proof.
  intros Hno. unfold getLatestSnapshot.
  destruct (cache _ !! toLowerCase chain_) as [v |] eqn:Hv; [| reflexivity].
  exfalso.
  assert (Hkey : includes (toLowerCase chain_) ":" = true).
  { revert Hv.
    apply (cache_invariant (fun k _ => includes k ":" = true)).
    - intros. apply includes_cacheKey.
    - intros k v0. cbn. rewrite lookup_empty. discriminate. }
  congruence.
Qed.

End SnapshotCache.

(** ** Chains the endpoint answers for *)

Section Chains.
Import JS Snapshot.
Context `{Pricing} `{StaticTokens}.

Lemma includes_no_adapter chain_ :
  includes ("No adapter found for chain: " ++ chain_) "No adapter" = true.
Proof. lazy. reflexivity. Qed.

Lemma getLatest_no_adapter svc now req :
  adapters svc !! toLowerCase (params_chain req) = None ->
  getLatest svc now req =
  ({| status := 404; body := MessageBody "Chain not supported" |}, svc).
Proof.
  intros Hnone. unfold getLatest, generateSnapshot. rewrite Hnone.
  now rewrite includes_no_adapter.
Qed.

(** The chain name of a request counts up to case only: two requests that
    differ in the case of the chain name get the same answer and leave the
    service in the same state. *)
Theorem chain_name_case_insensitive svc now req1 req2 :
  toLowerCase (params_chain req1) = toLowerCase (params_chain req2) ->
  query_offset req1 = query_offset req2 ->
  query_limit req1 = query_limit req2 ->
  getLatest svc now req1 = getLatest svc now req2.
Proof.
  intros Hchain Hoff Hlim.
  destruct (adapters svc !! toLowerCase (params_chain req1)) as [adapter |]
    eqn:Had.
  - unfold getLatest, generateSnapshot, parseOffset, parseLimit.
    rewrite <- Hchain, Had, <- Hoff, <- Hlim. reflexivity.
  - rewrite !getLatest_no_adapter; [reflexivity | | exact Had].
    now rewrite <- Hchain.
Qed.

Lemma step_adapters svc ev : adapters (step svc ev) = adapters svc.
Proof.
  destruct ev as [now req | eth poly]; [| reflexivity].
  cbn [step]. unfold getLatest, generateSnapshot.
  destruct (adapters svc !! _); [reflexivity |].
  now destruct (includes _ _).
Qed.

Lemma steps_adapters svc events :
  adapters (fold_left step events svc) = adapters svc.
Proof.
  revert svc. induction events as [|ev events IH]; intros svc; [reflexivity |].
  cbn [fold_left]. now rewrite IH, step_adapters.
Qed.

Lemma registerRoutes_adapters svc0 k :
  registerRoutes = Some svc0 ->
  is_Some (adapters svc0 !! k) <-> k = "ethereum" \/ k = "polygon".
Proof.
  unfold registerRoutes, MockAdapter.
  destruct (match List.find _ (default [] (SUPPORTED_TOKENS !! toLowerCase "ethereum"))
            with Some t => Some t | None => _ end) as [stableE |];
    [| discriminate].
  destruct (match List.find _ (default [] (SUPPORTED_TOKENS !! toLowerCase "polygon"))
            with Some t => Some t | None => _ end) as [stableP |];
    [| discriminate].
  intros [= <-]. unfold newSnapshotService. cbn [adapters fold_left getChainName].
  repeat match goal with
         | |- context [<[?key := _]> _] =>
             progress (let v := eval vm_compute in key in
                       change key with v)
         end.
  rewrite !lookup_insert. split.
  - intros Hsome. repeat case_decide; auto.
    rewrite lookup_empty in Hsome. now destruct Hsome.
  - intros [-> | ->]; repeat case_decide;
      try (eexists; reflexivity); congruence.
Qed.

(** The endpoint as [registerRoutes] wires it answers 200 for the chains
    ethereum and polygon, in any case, and for every other chain name 404
    with the message "Chain not supported", changing nothing; this whatever
    came before. *)
Theorem wired_service_chains svc0 events now req :
  registerRoutes = Some svc0 ->
  let svc := fold_left step events svc0 in
  let chainKey := toLowerCase (params_chain req) in
  (chainKey = "ethereum" \/ chainKey = "polygon" ->
   status (fst (getLatest svc now req)) = 200)
  /\ (chainKey <> "ethereum" -> chainKey <> "polygon" ->
      getLatest svc now req =
      ({| status := 404; body := MessageBody "Chain not supported" |}, svc)).
Proof.
  intros Hreg svc chainKey.
  pose proof (registerRoutes_adapters svc0 chainKey Hreg) as Hdom.
  rewrite <- (steps_adapters svc0 events) in Hdom. fold svc in Hdom.
  split.
  - intros Hk. apply Hdom in Hk as [adapter Had].
    now rewrite (getLatest_supported svc now req adapter Had).
  - intros He Hp. apply getLatest_no_adapter.
    destruct (adapters svc !! toLowerCase (params_chain req)) as [a |] eqn:Ha;
      [| reflexivity].
    exfalso. destruct (proj1 Hdom (ex_intro _ a Ha)); contradiction.
Qed.

End Chains.

Lemma warm_read_same_entries_witness :
  exists snap1 svc1,
    @Snapshot.generateSnapshot Examples.pricing Examples.staticTokens
      Examples.twoPoolService 1000 "ethereum" 0 25 = inr (snap1, svc1)
    /\ @Snapshot.generateSnapshot Examples.pricing Examples.staticTokens
         svc1 9000 "ethereum" 0 25
       = inr ({| Snapshot.snapshot_timestamp := 9000;
                 Snapshot.chain := Snapshot.chain snap1;
                 Snapshot.entries := Snapshot.entries snap1 |}, svc1).
Proof.
  destruct (@Snapshot.generateSnapshot Examples.pricing Examples.staticTokens
              Examples.twoPoolService 1000 "ethereum" 0 25)
    as [e | [snap1 svc1]] eqn:Hgen; [vm_compute in Hgen; discriminate |].
  exists snap1, svc1. split; [reflexivity |].
  apply (@warm_read_same_entries Examples.pricing Examples.staticTokens
           Examples.twoPoolService 1000 9000 "ethereum" 0 25 snap1 svc1 Hgen).
  - vm_compute. repeat constructor; set_solver.
  - vm_compute. repeat constructor.
  - lia.
Defined.

Lemma derived_figures_always_witness :
  exists snapshot,
    Snapshot.body
      (fst (@Snapshot.getLatest Examples.pricing Examples.staticTokens
              Examples.twoPoolService 1000
              (Examples.request "ethereum" None None)))
    = Snapshot.SnapshotBody snapshot
    /\ Forall Snapshot.derivedOk (Snapshot.entries snapshot).
Proof.
  eexists. split; [vm_compute; reflexivity |].
  apply (@derived_figures_always Examples.pricing Examples.staticTokens
           [Examples.twoPoolAdapter] [] 1000
           (Examples.request "ethereum" None None)).
  vm_compute. reflexivity.
Defined.

Lemma getLatestSnapshot_undefined_witness :
  Snapshot.getLatestSnapshot
    (@Snapshot.step Examples.pricing Examples.staticTokens
       Examples.twoPoolService
       (Snapshot.Get 1000 (Examples.request "ethereum" None None)))
    "Ethereum"
  = None.
Proof.
  apply (@getLatestSnapshot_undefined Examples.pricing Examples.staticTokens
           [Examples.twoPoolAdapter]
           [Snapshot.Get 1000 (Examples.request "ethereum" None None)]
           "Ethereum").
  vm_compute. reflexivity.
Defined.

Lemma chain_name_case_insensitive_witness :
  @Snapshot.getLatest Examples.pricing Examples.staticTokens
    Examples.wiredService 1000 (Examples.request "EtherEUM" None None)
  = @Snapshot.getLatest Examples.pricing Examples.staticTokens
      Examples.wiredService 1000 (Examples.request "ethereum" None None).
Proof.
  apply (@chain_name_case_insensitive Examples.pricing Examples.staticTokens);
    reflexivity.
Defined.

Lemma wired_service_chains_witness :
  Snapshot.status
    (fst (@Snapshot.getLatest Examples.pricing Examples.staticTokens
            Examples.wiredService 1000
            (Examples.request "Polygon" None None))) = 200
  /\ @Snapshot.getLatest Examples.pricing Examples.staticTokens
       Examples.wiredService 1000 (Examples.request "bsc" None None)
     = ({| Snapshot.status := 404;
           Snapshot.body := Snapshot.MessageBody "Chain not supported" |},
        Examples.wiredService).
Proof.
  split.
  - apply (proj1 (@wired_service_chains Examples.pricing Examples.staticTokens
                    Examples.wiredService [] 1000
                    (Examples.request "Polygon" None None) eq_refl)).
    right. reflexivity.
  - apply (proj2 (@wired_service_chains Examples.pricing Examples.staticTokens
                    Examples.wiredService [] 1000
                    (Examples.request "bsc" None None) eq_refl));
      vm_compute; discriminate.
Defined.

Lemma wired_service_entries_synthetic_witness :
  exists snapshot,
    Snapshot.body
      (fst (@Snapshot.getLatest Examples.pricing Examples.staticTokens
              Examples.wiredService 1000
              (Examples.request "ethereum" None None)))
    = Snapshot.SnapshotBody snapshot
    /\ Forall Snapshot.synthetic (Snapshot.entries snapshot).
Proof.
  eexists. split; [vm_compute; reflexivity |].
  apply (@wired_service_entries_synthetic Examples.pricing
           Examples.staticTokens Examples.wiredService [] 1000
           (Examples.request "ethereum" None None));
    vm_compute; reflexivity.
Defined.

Lemma allMetadata_spec_merged_witness :
  Snapshot.allMetadata [Examples.USDC; Examples.WETH] [Examples.weth_lower]
  = Snapshot.spec_merged [Examples.USDC; Examples.WETH] [Examples.weth_lower]
  /\ NoDup (map Snapshot.keyOf
              (Snapshot.allMetadata [Examples.USDC; Examples.WETH]
                 [Examples.weth_lower])).
Proof.
  apply allMetadata_spec_merged.
  - vm_compute. repeat constructor; set_solver.
  - vm_compute. repeat constructor; set_solver.
Defined.

Lemma getLatest_offset_beyond_end_witness :
  fst (@Snapshot.getLatest Examples.pricing Examples.staticTokens
         Examples.wiredService 1000
         (Examples.request "ethereum" (Some "2") None))
  = {| Snapshot.status := 200;
       Snapshot.body :=
         Snapshot.SnapshotBody
           {| Snapshot.snapshot_timestamp := 1000;
              Snapshot.chain := "ethereum";
              Snapshot.entries := [] |} |}.
Proof.
  apply (@getLatest_offset_beyond_end Examples.pricing Examples.staticTokens
           Examples.wiredService 1000
           (Examples.request "ethereum" (Some "2") None)
           (default Examples.twoPoolAdapter
              (@Snapshot.MockAdapter Examples.staticTokens "ethereum"))).
  - vm_compute. reflexivity.
  - vm_compute. discriminate.
Defined.

(** ** Routes of a registry under insertion *)

Section RegistryRoutes.
Import JS Discovery.

Lemma ensure_lookup_eq key (routes : gmap string (list PricingRoute)) k :
  ensure key routes !! k =
  if decide (key = k) then Some (default [] (routes !! k)) else routes !! k.
Proof.
  unfold ensure. case_decide as Hk.
  - subst k. destruct (routes !! key) as [l |] eqn:Hl.
    + now rewrite Hl.
    + now rewrite lookup_insert_eq.
  - destruct (routes !! key); [reflexivity |]. now rewrite lookup_insert_ne.
Qed.

(** The route lists after an insertion: the two new routes are appended
    under the lowercase addresses of the two tokens, nothing else
    changes. *)
Lemma addPoolToRegistry_routes_at registry poolAddress poolState fee k :
  let k0 := toLowerCase (state_token0 poolState) in
  let k1 := toLowerCase (state_token1 poolState) in
  let r0 := {| pool := poolAddress; base := state_token1 poolState |} in
  let r1 := {| pool := poolAddress; base := state_token0 poolState |} in
  let old := default [] (pricingRoutes registry !! k) in
  pricingRoutes (addPoolToRegistry registry poolAddress poolState fee) !! k =
  if decide (k0 = k)
  then if decide (k1 = k) then Some (old ++ [r0; r1])%list
       else Some (old ++ [r0])%list
  else if decide (k1 = k) then Some (old ++ [r1])%list
       else pricingRoutes registry !! k.
Proof.
  intros k0 k1 r0 r1 old. unfold addPoolToRegistry, push.
  cbn [pricingRoutes]. fold k0 k1 r0 r1.
  rewrite !lookup_alter, !ensure_lookup_eq.
  clearbody k0 k1 r0 r1. subst old.
  repeat case_decide; subst; cbn; try congruence.
  now rewrite <- app_assoc.
Qed.

Lemma addPoolToRegistry_extends registry poolAddress poolState fee :
  extends registry (addPoolToRegistry registry poolAddress poolState fee).
Proof.
  split.
  - intros k Hk. rewrite addPoolToRegistry_pools. case_decide; eauto.
  - intros k l Hl. rewrite addPoolToRegistry_routes_at, Hl. cbn.
    repeat case_decide; eauto. exists []. now rewrite app_nil_r.
Qed.

Lemma extends_trans r1 r2 r3 : extends r1 r2 -> extends r2 r3 -> extends r1 r3.
Proof.
  intros [Hp12 Hr12] [Hp23 Hr23]. split; [auto |].
  intros k l Hl. destruct (Hr12 k l Hl) as [l' Hl'].
  destruct (Hr23 k _ Hl') as [l'' Hl'']. exists (l' ++ l'')%list.
  now rewrite app_assoc.
Qed.

(** Inserting a pool a second time leaves [pools] as it is, but appends
    its routes once more: the route lists do not stay free of repeated
    edges. *)
Theorem reinsertion_repeats_routes registry poolAddress poolState fee :
  let once := addPoolToRegistry registry poolAddress poolState fee in
  let twice := addPoolToRegistry once poolAddress poolState fee in
  let r0 := {| pool := poolAddress; base := state_token1 poolState |} in
  pools twice = pools once
  /\ exists l new,
       pricingRoutes once !! toLowerCase (state_token0 poolState) = Some l
       /\ pricingRoutes twice !! toLowerCase (state_token0 poolState)
          = Some (l ++ new)%list
       /\ r0 ∈ l /\ r0 ∈ new.
Proof.
  intros once twice r0. split.
  - unfold twice, once, addPoolToRegistry. cbn [pools].
    apply insert_insert_eq.
  - unfold twice. rewrite addPoolToRegistry_routes_at.
    unfold once at 2. rewrite addPoolToRegistry_routes_at.
    unfold once. rewrite addPoolToRegistry_routes_at.
    fold r0. case_decide; [| congruence].
    case_decide; cbn; eexists _, _;
      (split; [reflexivity |]); (split; [reflexivity |]); set_solver.
Qed.

End RegistryRoutes.

(** ** What discovery runs never do *)

Section DiscoveryFrames.
Import JS Discovery.
Context `{EthersAdapter} `{Clock}.

(** A run removes nothing: every pool key of the chain's registry stays,
    and every route list is continued, never shortened or reordered. *)
Theorem discovery_only_adds tokens chainId w :
  extends (storedRegistry w chainId)
    (storedRegistry (discoverPoolsForTokens tokens chainId w).2 chainId).
Proof.
  apply (discovery_invariant (extends (storedRegistry w chainId))
           (fun _ => True)); auto.
  - intros registry poolAddress poolState fee _ Hext.
    eapply extends_trans; [exact Hext | apply addPoolToRegistry_extends].
  - split; [auto |]. intros k l Hl. exists []. now rewrite app_nil_r.
Qed.

Lemma discoverToken_storage token chainId l w :
  storage (discoverToken token chainId l w).2 = storage w.
Proof.
  unfold discoverToken, bind.
  match goal with
  | |- context [forOf ?bs ?body ?l0 w] =>
      pose proof (probes_frame token chainId bs l0 w) as Hframe;
      destruct (forOf bs body l0 w) as [l1 w1]
  end.
  cbn in Hframe. now destruct Hframe as (_ & _ & Hst).
Qed.

Lemma tokenStep_frame chainId token l w :
  let w' := (tokenStep chainId token l w).2 in
  storage w' = storage w
  /\ forall k, k <> attemptKey token chainId ->
       discoveryAttempts w' !! k = discoveryAttempts w !! k.
Proof.
  assert (Hdiscover : forall l0,
    storage (discoverToken token chainId l0 w).2 = storage w
    /\ forall k, k <> attemptKey token chainId ->
         discoveryAttempts (discoverToken token chainId l0 w).2 !! k
         = discoveryAttempts w !! k).
  { intros l0. split; [apply discoverToken_storage |].
    intros k Hk.
    destruct (discoverToken_records token chainId l0 w) as (a & -> & _).
    now rewrite lookup_insert_ne. }
  unfold tokenStep, bind, lastAttemptOf.
  destruct (discoveryAttempts w !! attemptKey token chainId) as [a |];
    [| apply Hdiscover].
  unfold now. cbn. destruct (_ <? _); [now cbn |].
  match goal with
  | |- context [discoverToken token chainId l ?w1] =>
      pose proof (discoverToken_storage token chainId l w1) as Hst;
      destruct (discoverToken_records token chainId l w1) as (b & Hat & _)
  end.
  cbn in *. split; [exact Hst |].
  intros k Hk. rewrite Hat. now rewrite lookup_insert_ne.
Qed.

(** A run touches the registry of its own chain only, and the recorded
    attempts of the tokens it was called with only. *)
Theorem discovery_touches_own_chain tokens chainId w :
  let w' := (discoverPoolsForTokens tokens chainId w).2 in
  (forall c, c <> chainId -> storage w' !! c = storage w !! c)
  /\ (forall k,
        (forall token, token ∈ tokens -> attemptKey token chainId <> k) ->
        discoveryAttempts w' !! k = discoveryAttempts w !! k).
Proof.
  unfold discoverPoolsForTokens, bind, getPoolRegistry, savePoolRegistry, ret.
  match goal with
  | |- context [forOf tokens ?body ?l0 w] =>
      pose proof (forOf_invariant
        (fun (_ : Locals) w' =>
           storage w' = storage w
           /\ forall k,
                (forall token, token ∈ tokens -> attemptKey token chainId <> k) ->
                discoveryAttempts w' !! k = discoveryAttempts w !! k)
        tokens body) as Hloop;
      specialize (Hloop
        (fun token s w1 Hin Hs =>
           let Hf := tokenStep_frame chainId token s w1 in
           conj (eq_trans (proj1 Hf) (proj1 Hs))
                (fun k Hk =>
                   eq_trans (proj2 Hf k (fun Heq => Hk token Hin (eq_sym Heq)))
                            (proj2 Hs k Hk)))
        l0 w (conj eq_refl (fun _ _ => eq_refl)));
      destruct (forOf tokens body l0 w) as [l1 w1]
  end.
  cbn in *. destruct Hloop as [Hst Hat]. split; [| exact Hat].
  intros c Hc. rewrite lookup_insert_ne by congruence. now rewrite Hst.
Qed.

(** After a call every token of the call has an attempt on record. *)
Theorem attempts_recorded_for_all tokens chainId w token :
  token ∈ tokens ->
  is_Some (discoveryAttempts (discoverPoolsForTokens tokens chainId w).2
             !! attemptKey token chainId).
Proof.
  intros Hin.
  assert (Hkeeps : forall t l0 w0 k,
            is_Some (discoveryAttempts w0 !! k) ->
            is_Some (discoveryAttempts (tokenStep chainId t l0 w0).2 !! k)).
  { intros t l0 w0 k Hk.
    destruct (decide (k = attemptKey t chainId)) as [-> | Hne].
    - unfold tokenStep, bind, lastAttemptOf.
      destruct Hk as [a Ha]. rewrite Ha. unfold now. cbn.
      destruct (_ <? _); [cbn; eauto |].
      match goal with
      | |- context [discoverToken t chainId l0 ?w1] =>
          destruct (discoverToken_records t chainId l0 w1) as (b & -> & _)
      end.
      rewrite lookup_insert_eq. eauto.
    - now rewrite (proj2 (tokenStep_frame chainId t l0 w0) k Hne). }
  assert (Hrecords : forall t l0 w0,
            is_Some (discoveryAttempts (tokenStep chainId t l0 w0).2
                       !! attemptKey t chainId)).
  { intros t l0 w0.
    destruct (discoveryAttempts w0 !! attemptKey t chainId) as [a |] eqn:Ha;
      [apply Hkeeps; eauto |].
    unfold tokenStep, bind, lastAttemptOf. rewrite Ha.
    destruct (discoverToken_records t chainId l0 w0) as (b & -> & _).
    rewrite lookup_insert_eq. eauto. }
  unfold discoverPoolsForTokens, bind, getPoolRegistry, savePoolRegistry, ret.
  match goal with
  | |- context [forOf tokens ?body ?l0 w] => generalize l0
  end.
  intros l0. revert l0 w.
  induction tokens as [|t tokens IH]; intros l0 w; [inversion Hin |].
  cbn [forOf]. unfold bind.
  destruct (tokenStep chainId t l0 w) as [l1 w1] eqn:Hstep.
  apply elem_of_cons in Hin as [-> | Hin].
  - pose proof (Hrecords t l0 w) as Hrec. rewrite Hstep in Hrec. cbn in Hrec.
    pose proof (forOf_invariant
      (fun (_ : Locals) w' =>
         is_Some (discoveryAttempts w' !! attemptKey t chainId))
      tokens (tokenStep chainId)
      (fun x s w0 _ Hs => Hkeeps x s w0 _ Hs) l1 w1 Hrec) as Hloop.
    destruct (forOf tokens (tokenStep chainId) l1 w1) as [l2 w2].
    exact Hloop.
  - apply (IH Hin l1 w1).
Qed.

End DiscoveryFrames.

(** ** Counting in discovery runs *)

Section DiscoveryCounting.
Import JS Discovery.
Context `{EthersAdapter} `{Clock}.

Lemma probeStep_counters registry0 token chainId baseToken fee l w :
  countersOk registry0 l ->
  countersOk registry0 (probeStep token chainId baseToken fee l w).1.
Proof.
  intros (Hfound & Hbatch & Hreg).
  unfold probeStep, bind, probe, callGetPoolAddress, callGetPoolState,
    history, logCall, ret, bind. cbn.
  assert (Hsame : countersOk registry0
            {| poolRegistry := poolRegistry l;
               poolsFoundForToken := poolsFoundForToken l + 0;
               poolsDiscoveredThisBatch := poolsDiscoveredThisBatch l + 0 |}).
  { unfold countersOk. cbn. rewrite !Z.add_0_r. auto. }
  destruct (getPoolAddress _ _ _ _ _) as [[[|c poolAddress] |] |]; cbn;
    try exact Hsame.
  destruct (getPoolState _ _ _) as [poolState |]; cbn; [| exact Hsame].
  unfold countersOk. cbn. repeat split; lia.
Qed.

Lemma discoverToken_counters registry0 token chainId l w :
  countersOk registry0 l ->
  countersOk registry0 (discoverToken token chainId l w).1.
Proof.
  intros (Hfound & Hbatch & Hreg). unfold discoverToken, bind.
  match goal with
  | |- context [forOf ?bs ?body ?l0 w] =>
      pose proof (forOf_invariant
        (fun (s : Locals) (_ : World) => countersOk registry0 s) bs body) as Hloop;
      specialize (Hloop
        (fun baseToken s w0 _ Hs =>
           forOf_invariant
             (fun (s : Locals) (_ : World) => countersOk registry0 s)
             FEE_TIERS (probeStep token chainId baseToken)
             (fun fee s1 w1 _ Hs1 =>
                probeStep_counters registry0 token chainId baseToken fee
                  s1 w1 Hs1)
             s w0 Hs)
        l0 w);
      destruct (forOf bs body l0 w) as [l1 w1]
  end.
  unfold now, recordAttempt, ret. cbn [fst snd] in Hloop |- *.
  apply Hloop. unfold countersOk. cbn. repeat split; auto. lia.
Qed.

Lemma tokenStep_counters registry0 chainId token l w :
  countersOk registry0 l ->
  countersOk registry0 (tokenStep chainId token l w).1.
Proof.
  intros Hl. unfold tokenStep, bind, lastAttemptOf.
  destruct (discoveryAttempts w !! attemptKey token chainId) as [a |];
    [| now apply discoverToken_counters].
  unfold now. cbn. destruct (_ <? _); [exact Hl |].
  now apply discoverToken_counters.
Qed.

(** The number a call answers is not negative, and when it is 0 the
    registry of the chain is as it was before the call. *)
Theorem zero_found_registry_unchanged tokens chainId w :
  let '(found, w') := discoverPoolsForTokens tokens chainId w in
  0 <= found
  /\ (found = 0 -> storedRegistry w' chainId = storedRegistry w chainId).
Proof.
  unfold discoverPoolsForTokens, bind, getPoolRegistry, savePoolRegistry, ret.
  match goal with
  | |- context [forOf tokens ?body ?l0 w] =>
      pose proof (forOf_invariant
        (fun (s : Locals) (_ : World) =>
           countersOk (storedRegistry w chainId) s)
        tokens body
        (fun token s w0 _ Hs =>
           tokenStep_counters (storedRegistry w chainId) chainId token s w0 Hs)
        l0 w) as Hloop;
      destruct (forOf tokens body l0 w) as [l1 w1]
  end.
  cbn in Hloop. destruct Hloop as (_ & Hbatch & Hreg).
  { unfold countersOk. cbn. repeat split; auto; lia. }
  cbn. split; [exact Hbatch |].
  intros Hzero. unfold storedRegistry at 1. cbn.
  rewrite lookup_insert_eq. cbn. now apply Hreg.
Qed.

Lemma probeCount_snoc log c :
  probeCount (log ++ [c]) =
  (probeCount log
   + match c with GetPoolAddress _ _ _ _ => 1 | GetPoolState _ _ => 0 end)%nat.
Proof.
  unfold probeCount. rewrite List.filter_app, length_app.
  now destruct c.
Qed.

(** One probe sends exactly one request for a pool address. *)
Lemma probeStep_probeCount token chainId baseToken fee l w :
  probeCount (rpcLog (probeStep token chainId baseToken fee l w).2)
  = (1 + probeCount (rpcLog w))%nat.
Proof.
  unfold probeStep, bind, probe, callGetPoolAddress, callGetPoolState,
    history, logCall, ret, bind. cbn -[probeCount].
  destruct (getPoolAddress _ _ _ _ _) as [[[|c poolAddress] |] |];
    cbn -[probeCount]; rewrite ?probeCount_snoc; try lia.
  destruct (getPoolState _ _ _) as [poolState |]; cbn -[probeCount];
    rewrite !probeCount_snoc; lia.
Qed.

(** A loop whose every iteration adds [n] to a measure of the world adds
    [n] times the length of the list. *)
Lemma forOf_count {A S} (mu : World -> nat) (n : nat) (l : list A)
    (body : A -> S -> M S) :
  (forall x s w, mu (body x s w).2 = (n + mu w)%nat) ->
  forall s w, mu (forOf l body s w).2 = (n * length l + mu w)%nat.
Proof.
  intros Hbody. induction l as [|a l IH]; intros s w; [cbn; lia |].
  cbn [forOf length]. unfold bind.
  pose proof (Hbody a s w) as Hstep.
  destruct (body a s w) as [s' w']. rewrite IH. cbn in Hstep. lia.
Qed.

Lemma discoverToken_probeCount token chainId l w :
  probeCount (rpcLog (discoverToken token chainId l w).2)
  = (4 * length (default [] (BASE_TOKENS !! chainId))
     + probeCount (rpcLog w))%nat.
Proof.
  unfold discoverToken, bind.
  match goal with
  | |- context [forOf ?bs ?body ?l0 w] =>
      pose proof (forOf_count (fun w' => probeCount (rpcLog w')) 4 bs body)
        as Hloop;
      specialize (Hloop
        (fun baseToken s w0 =>
           forOf_count (fun w' => probeCount (rpcLog w')) 1 FEE_TIERS
             (probeStep token chainId baseToken)
             (fun fee s1 w1 =>
                probeStep_probeCount token chainId baseToken fee s1 w1)
             s w0)
        l0 w);
      destruct (forOf bs body l0 w) as [l1 w1]
  end.
  unfold now, recordAttempt, ret. cbn [fst snd rpcLog] in Hloop |- *.
  exact Hloop.
Qed.

(** Discovering a token that has no attempt on record sends exactly four
    requests for a pool address per base token of the chain (16 on chain
    1, 20 on chain 137), whatever the chain answers. *)
Theorem fresh_token_probe_count token chainId w :
  discoveryAttempts w !! attemptKey token chainId = None ->
  probeCount (rpcLog (discoverPoolsForTokens [token] chainId w).2)
  = (4 * length (default [] (BASE_TOKENS !! chainId))
     + probeCount (rpcLog w))%nat.
Proof.
  intros Hnone.
  unfold discoverPoolsForTokens, bind, getPoolRegistry, savePoolRegistry, ret.
  cbn [forOf]. unfold bind, tokenStep, bind, lastAttemptOf, ret.
  rewrite Hnone.
  match goal with
  | |- context [discoverToken token chainId ?l0 w] =>
      pose proof (discoverToken_probeCount token chainId l0 w) as Hcount;
      destruct (discoverToken token chainId l0 w) as [l1 w1]
  end.
  exact Hcount.
Qed.

(** On a chain without base tokens (any chain but 1 and 137) a call for a
    token without an attempt on record sends nothing and finds nothing,
    yet records a failed attempt, which bars the token for the retry
    window, and saves the registry of the chain. *)
Theorem unsupported_chain_call token chainId w :
  chainId <> 1 -> chainId <> 137 ->
  discoveryAttempts w !! attemptKey token chainId = None ->
  discoverPoolsForTokens [token] chainId w =
  (0, {| discoveryAttempts :=
           <[attemptKey token chainId :=
               {| tokenAddress := address token;
                  attempt_chainId := chainId;
                  attemptedAt := Date_now (clockReads w);
                  poolsFound := 0;
                  succeeded := false |}]> (discoveryAttempts w);
         storage := <[chainId := storedRegistry w chainId]> (storage w);
         clockReads := S (clockReads w);
         rpcLog := rpcLog w |}).
Proof.
  intros H1 H137 Hnone.
  assert (Hbase : BASE_TOKENS !! chainId = None).
  { unfold BASE_TOKENS. rewrite !lookup_insert_ne by congruence.
    apply lookup_empty. }
  unfold discoverPoolsForTokens, bind, getPoolRegistry, savePoolRegistry, ret.
  cbn [forOf]. unfold bind, tokenStep, bind, lastAttemptOf, ret.
  rewrite Hnone. unfold discoverToken, bind. rewrite Hbase. reflexivity.
Qed.

End DiscoveryCounting.

Section DiscoveryWitnesses.
Import Discovery.

Lemma attempts_recorded_for_all_witness :
  is_Some
    (discoveryAttempts
       (@discoverPoolsForTokens Examples.onePoolChain Examples.clockAt60s
          [Examples.wethToken] 1 Examples.emptyWorld).2
       !! "0xc02aaa39b223fe8d0a0e5c4f27ead9083c756cc2-1").
Proof.
  apply (@attempts_recorded_for_all Examples.onePoolChain Examples.clockAt60s
           [Examples.wethToken] 1 Examples.emptyWorld Examples.wethToken).
  left.
Defined.

Lemma discovery_touches_own_chain_witness :
  let w' :=
    (@discoverPoolsForTokens Examples.onePoolChain Examples.clockAt60s
       [Examples.wethToken] 1 Examples.emptyWorld).2 in
  storage w' !! 137 = None
  /\ discoveryAttempts w' !! "0xc02aaa39b223fe8d0a0e5c4f27ead9083c756cc2-137"
     = None.
Proof.
  intros w'. subst w'.
  destruct (@discovery_touches_own_chain Examples.onePoolChain
              Examples.clockAt60s [Examples.wethToken] 1 Examples.emptyWorld)
    as [Hst Hat].
  split.
  - now rewrite (Hst 137) by lia.
  - rewrite Hat; [reflexivity |].
    intros token Hin. apply list_elem_of_singleton in Hin as ->.
    vm_compute. discriminate.
Defined.

Lemma zero_found_registry_unchanged_witness :
  let '(found, w') :=
    @discoverPoolsForTokens Examples.onePoolChain Examples.clockAt60s
      [Examples.wethToken] 1 Examples.attemptedWorld in
  found = 0 /\ storedRegistry w' 1 = emptyRegistry.
Proof.
  pose proof (@zero_found_registry_unchanged Examples.onePoolChain
                Examples.clockAt60s [Examples.wethToken] 1
                Examples.attemptedWorld) as Hzero.
  destruct (@discoverPoolsForTokens Examples.onePoolChain Examples.clockAt60s
              [Examples.wethToken] 1 Examples.attemptedWorld)
    as [found w'] eqn:Hrun.
  assert (Hfound : found = 0).
  { vm_compute in Hrun. now injection Hrun as <- _. }
  split; [exact Hfound |]. now apply (proj2 Hzero).
Defined.

Lemma fresh_token_probe_count_witness :
  probeCount
    (rpcLog (@discoverPoolsForTokens Examples.onePoolChain Examples.clockAt60s
               [Examples.wethToken] 1 Examples.emptyWorld).2)
  = 16%nat.
Proof.
  rewrite (@fresh_token_probe_count Examples.onePoolChain Examples.clockAt60s
             Examples.wethToken 1 Examples.emptyWorld); reflexivity.
Defined.

Lemma unsupported_chain_call_witness :
  (@discoverPoolsForTokens Examples.onePoolChain Examples.clockAt60s
     [Examples.wethToken] 56 Examples.emptyWorld).1 = 0
  /\ succeeded
       <$> (discoveryAttempts
              (@discoverPoolsForTokens Examples.onePoolChain
                 Examples.clockAt60s [Examples.wethToken] 56
                 Examples.emptyWorld).2
              !! attemptKey Examples.wethToken 56)
     = Some false.
Proof.
  rewrite (@unsupported_chain_call Examples.onePoolChain Examples.clockAt60s
             Examples.wethToken 56 Examples.emptyWorld);
    [| lia | lia | reflexivity].
  split; [reflexivity |]. cbn [snd discoveryAttempts].
  now rewrite lookup_insert_eq.
Defined.

Lemma discovery_keeps_routesClosed_witness :
  routesClosed
    (storedRegistry
       (@discoverPoolsForTokens Examples.onePoolChain Examples.clockAt60s
          [Examples.wethToken] 1 Examples.emptyWorld).2 1).
Proof.
  apply (@discovery_keeps_routesClosed Examples.onePoolChain
           Examples.clockAt60s [Examples.wethToken] 1 Examples.emptyWorld).
  intros k l x Hl.
  change (pricingRoutes emptyRegistry !! k = Some l) in Hl.
  cbn in Hl. rewrite lookup_empty in Hl. discriminate.
Defined.

Lemma second_call_is_skipped_witness :
  let w1 :=
    (@discoverPoolsForTokens Examples.onePoolChain Examples.clockAt60s
       [Examples.wethToken] 1 Examples.emptyWorld).2 in
  let '(found, w2) :=
    @discoverPoolsForTokens Examples.onePoolChain Examples.clockAt60s
      [Examples.wethToken] 1 w1 in
  found = 0
  /\ rpcLog w2 = rpcLog w1
  /\ discoveryAttempts w2 = discoveryAttempts w1
  /\ storedRegistry w2 1 = storedRegistry w1 1.
Proof.
  apply (@second_call_is_skipped Examples.onePoolChain Examples.clockAt60s
           Examples.wethToken 1 Examples.emptyWorld).
  - reflexivity.
  - intros k _. vm_compute. reflexivity.
Defined.

End DiscoveryWitnesses.

(** ** Starting and stopping the scheduler *)

Section SchedulerLifecycle.
Import Scheduler.

(** The timers the scheduler owns, given those [t0] that ran before it was
    created: its own timer while it runs, none otherwise. *)
Lemma command_timers t0 s c :
  (forall i, i ∈ running t0 -> (i < nextHandle t0)%nat) ->
  (nextHandle t0 <= nextHandle (s.2))%nat
  /\ (forall i, i ∈ running (s.2) -> (i < nextHandle (s.2))%nat)
  /\ (if isRunning (s.1)
      then exists id, executionLoopIntervalId (s.1) = Some id
                      /\ (id ∉ running t0)
                      /\ running (s.2) = {[id]} ∪ running t0
      else executionLoopIntervalId (s.1) = None /\ running (s.2) = running t0) ->
  let s' := command s c in
  (nextHandle t0 <= nextHandle (s'.2))%nat
  /\ (forall i, i ∈ running (s'.2) -> (i < nextHandle (s'.2))%nat)
  /\ (if isRunning (s'.1)
      then exists id, executionLoopIntervalId (s'.1) = Some id
                      /\ (id ∉ running t0)
                      /\ running (s'.2) = {[id]} ∪ running t0
      else executionLoopIntervalId (s'.1) = None /\ running (s'.2) = running t0).
Proof.
  intros Hwf0 (Hnext & Hwf & Hown). destruct s as [sched t]. cbn in *.
  destruct c; cbn; destruct (isRunning sched) eqn:Hrun; cbn;
    try (rewrite Hrun; auto).
  - destruct Hown as [Hid Hrunning]. repeat split; [lia | |].
    + intros i Hi. apply elem_of_union in Hi as [Hi | Hi].
      * apply elem_of_singleton in Hi as ->. lia.
      * apply Hwf in Hi. lia.
    + exists (nextHandle t). split; [reflexivity |]. split.
      * intros Hin. apply Hwf0 in Hin. lia.
      * now rewrite Hrunning.
  - destruct Hown as (id & -> & Hfresh & Hrunning). cbn.
    repeat split; [exact Hnext | |].
    + intros i Hi. apply elem_of_difference in Hi as [Hi _]. now apply Hwf.
    + rewrite Hrunning. set_solver.
Qed.

(** Whatever sequence of [start] and [stop] a new scheduler receives, it
    owns exactly one interval timer while [isActive] answers true and none
    while it answers false: a second [start] adds no timer, and [stop]
    leaves none behind. *)
Theorem scheduler_owns_at_most_one_timer t0 commands :
  (forall i, i ∈ running t0 -> (i < nextHandle t0)%nat) ->
  let '(sched, t) := fold_left command commands (newScheduler, t0) in
  if isActive sched
  then exists id, executionLoopIntervalId sched = Some id
                  /\ (id ∉ running t0)
                  /\ running t = {[id]} ∪ running t0
  else executionLoopIntervalId sched = None /\ running t = running t0.
Proof.
  intros Hwf0.
  assert (Hinv : forall s,
    (nextHandle t0 <= nextHandle (s.2))%nat
    /\ (forall i, i ∈ running (s.2) -> (i < nextHandle (s.2))%nat)
    /\ (if isRunning (s.1)
        then exists id, executionLoopIntervalId (s.1) = Some id
                        /\ (id ∉ running t0)
                        /\ running (s.2) = {[id]} ∪ running t0
        else executionLoopIntervalId (s.1) = None /\ running (s.2) = running t0) ->
    let s' := fold_left command commands s in
    if isRunning (s'.1)
    then exists id, executionLoopIntervalId (s'.1) = Some id
                    /\ (id ∉ running t0)
                    /\ running (s'.2) = {[id]} ∪ running t0
    else executionLoopIntervalId (s'.1) = None /\ running (s'.2) = running t0).
  { induction commands as [|c commands IH]; intros s Hs.
    - cbn. apply Hs.
    - cbn [fold_left]. apply IH. now apply command_timers. }
  specialize (Hinv (newScheduler, t0)).
  destruct (fold_left command commands (newScheduler, t0)) as [sched t].
  apply Hinv. cbn. auto.
Qed.

(** [start] twice is [start] once, and [stop] on a scheduler that does not
    run changes nothing. *)
Theorem start_stop_idempotent s :
  start (start s) = start s /\ stop (stop s) = stop s.
Proof.
  destruct s as [sched t]. split.
  - cbn. destruct (isRunning sched) eqn:Hrun; cbn; now rewrite ?Hrun.
  - cbn. destruct (isRunning sched) eqn:Hrun; cbn; [| now rewrite Hrun].
    now destruct (executionLoopIntervalId sched).
Qed.

End SchedulerLifecycle.

Lemma scheduler_owns_at_most_one_timer_witness :
  let '(sched, t) :=
    fold_left Scheduler.command
      [Scheduler.Start; Scheduler.Start; Scheduler.Stop; Scheduler.Start]
      (Scheduler.newScheduler,
       {| Scheduler.running := ∅; Scheduler.nextHandle := 0 |}) in
  Scheduler.isActive sched = true /\ size (Scheduler.running t) = 1%nat.
Proof.
  pose proof (scheduler_owns_at_most_one_timer
                {| Scheduler.running := ∅; Scheduler.nextHandle := 0 |}
                [Scheduler.Start; Scheduler.Start; Scheduler.Stop;
                 Scheduler.Start]) as Hone.
  destruct (fold_left Scheduler.command _ _) as [sched t] eqn:Hrun.
  assert (Hact : Scheduler.isActive sched = true).
  { vm_compute in Hrun. now injection Hrun as <- _. }
  split; [exact Hact |].
  rewrite Hact in Hone.
  destruct Hone as (id & _ & _ & ->); [cbn; set_solver |].
  cbn. rewrite (right_id_L ∅ (∪)). apply size_singleton.
Defined.

(** ** Whole ticks *)

Section Ticks.
Import JS Scheduler.
Context `{PoolController} `{MulticallEngine} `{Conversions}.

Lemma addToChain_refs c r m x :
  In x (groupRefs (addToChain c r m)) <-> x = r \/ In x (groupRefs m).
Proof.
  unfold groupRefs. induction m as [|[c' rs] m IH]; cbn.
  - intuition.
  - destruct (c' =? c); cbn; rewrite !in_app_iff.
    + cbn. intuition.
    + rewrite IH. intuition.
Qed.

(** Grouping by chain neither loses nor invents a pool: the groups hold
    the references due that point to a pool, and no other. *)
Lemma groupByChain_refs alive poolsDue x :
  In x (groupRefs (groupByChain alive poolsDue))
  <-> In x poolsDue /\ is_Some (alive !! x).
Proof.
  unfold groupByChain.
  assert (Hgen : forall m,
    In x (groupRefs (fold_left
      (fun m r =>
         match alive !! r with
         | Some pool => addToChain (orDefault (Some (chainId pool)) 1) r m
         | None => m
         end) poolsDue m))
    <-> In x (groupRefs m) \/ (In x poolsDue /\ is_Some (alive !! x))).
  { induction poolsDue as [|r poolsDue IH]; intros m; cbn [fold_left].
    - cbn. intuition.
    - rewrite IH. cbn [In].
      destruct (alive !! r) as [pool |] eqn:Hr.
      + rewrite addToChain_refs. split.
        * intros [[-> | Hm] | [Hin Hx]]; eauto.
        * intros [Hm | [[-> | Hin] Hx]]; eauto.
      + split.
        * intros [Hm | [Hin Hx]]; eauto.
        * intros [Hm | [[-> | Hin] Hx]]; eauto.
          rewrite Hr in Hx. now destruct Hx. }
  rewrite Hgen. cbn. intuition.
Qed.



(** Results that name no tracked pool change nothing. *)
Theorem untracked_results_ignored now chainId_ poolsDue alive results :
  runBatches chainId_ (omap (fun r => alive !! r) poolsDue) = Results results ->
  Forall (fun result => findRef (poolAddress result) alive = None) results ->
  executeForChain now chainId_ poolsDue alive = (alive, false).
Proof.
  intros Hrun Hnone. unfold executeForChain.
  destruct poolsDue as [|r0 rs]; [reflexivity |].
  rewrite Hrun. f_equal.
  assert (Hfold : forall s, aliveSet s = alive ->
            aliveSet (fold_left (processResult now) results s) = alive).
  { clear Hrun.
    induction Hnone as [|result results Hres _ IH]; intros s Hs; [exact Hs |].
    cbn [fold_left]. apply IH. unfold processResult. rewrite Hs, Hres.
    destruct (success result); [| exact Hs].
    destruct (data result); [| exact Hs]. reflexivity. }
  now apply Hfold.
Qed.

(** Every result that is successful and carries data is counted exactly
    once, as a saving or as a computation; the others are not counted. *)
Theorem results_counted_once now results s :
  let s' := fold_left (processResult now) results s in
  blockAwareSavings s' + computationsPerformed s'
  = blockAwareSavings s + computationsPerformed s
    + Z.of_nat (length (List.filter usable results)).
Proof.
  revert s. induction results as [|result results IH]; intros s; [cbn; lia |].
  cbn [fold_left]. cbv zeta in IH. rewrite IH.
  cbn [List.filter]. unfold usable at 2, processResult.
  destruct (success result); [| cbn; lia].
  destruct (data result) as [d |]; [| cbn; lia].
  cbn [andb length]. destruct (_ && _); cbn [blockAwareSavings computationsPerformed]; lia.
Qed.

End Ticks.

(** ** One group per chain *)

Section Grouping.
Import JS Scheduler.

Lemma addToChain_keys c r m x :
  In x (map fst (addToChain c r m)) <-> x = c \/ In x (map fst m).
Proof.
  induction m as [|[c' rs] m IH]; cbn.
  - intuition.
  - destruct (Z.eqb_spec c' c) as [-> | Hne]; cbn; [intuition |].
    rewrite IH. intuition.
Qed.

Lemma addToChain_NoDup c r m :
  List.NoDup (map fst m) -> List.NoDup (map fst (addToChain c r m)).
Proof.
  induction m as [|[c' rs] m IH]; cbn; intros Hnd.
  - repeat constructor. intros [].
  - apply List.NoDup_cons_iff in Hnd as [Hfresh Hnd].
    destruct (Z.eqb_spec c' c) as [-> | Hne]; cbn.
    + now apply List.NoDup_cons_iff.
    + apply List.NoDup_cons_iff. split; [| now apply IH].
      rewrite addToChain_keys. intros [-> | Hin]; [congruence | contradiction].
Qed.

Lemma addToChain_members (P : PoolRef -> Z -> Prop) c r m :
  (forall c' rs x, In (c', rs) m -> In x rs -> P x c') ->
  P r c ->
  forall c' rs x, In (c', rs) (addToChain c r m) -> In x rs -> P x c'.
Proof.
  intros Hm Hr. induction m as [|[c0 rs0] m IH]; cbn; intros c' rs x.
  - intros [[= <- <-] | []] [-> | []]. exact Hr.
  - destruct (Z.eqb_spec c0 c) as [-> | Hne]; cbn.
    + intros [[= <- <-] | Hin] Hx.
      * apply in_app_iff in Hx as [Hx | [-> | []]]; [| exact Hr].
        apply (Hm c rs0 x); [now left | exact Hx].
      * apply (Hm c' rs x); [now right | exact Hx].
    + intros [[= <- <-] | Hin] Hx.
      * apply (Hm c0 rs0 x); [now left | exact Hx].
      * apply IH with (rs := rs); auto.
        intros c1 rs1 x1 Hin1. apply Hm. now right.
Qed.

(** The pools due are grouped by chain: there is one group per chain, a
    pool is in the group of its own chain (chain 1 when its [chainId] is
    0), and the groups together hold exactly the references due that point
    to a pool. *)
Theorem pools_grouped_by_chain alive poolsDue :
  let groups := groupByChain alive poolsDue in
  List.NoDup (map fst groups)
  /\ (forall c rs r,
        In (c, rs) groups -> In r rs ->
        exists pool,
          alive !! r = Some pool /\ orDefault (Some (chainId pool)) 1 = c)
  /\ (forall r,
        In r (groupRefs groups) <-> In r poolsDue /\ is_Some (alive !! r)).
Proof.
  intros groups. split; [| split; [| apply groupByChain_refs]].
  - unfold groups, groupByChain.
    assert (Hgen : forall m, List.NoDup (map fst m) ->
      List.NoDup (map fst (fold_left
        (fun m r =>
           match alive !! r with
           | Some pool => addToChain (orDefault (Some (chainId pool)) 1) r m
           | None => m
           end) poolsDue m))).
    { induction poolsDue as [|r poolsDue IH]; intros m Hm; [exact Hm |].
      cbn [fold_left]. apply IH.
      destruct (alive !! r); [now apply addToChain_NoDup | exact Hm]. }
    apply Hgen. constructor.
  - unfold groups, groupByChain.
    assert (Hgen : forall m,
      (forall c rs r, In (c, rs) m -> In r rs ->
         exists pool,
           alive !! r = Some pool /\ orDefault (Some (chainId pool)) 1 = c) ->
      forall c rs r,
        In (c, rs) (fold_left
          (fun m r =>
             match alive !! r with
             | Some pool => addToChain (orDefault (Some (chainId pool)) 1) r m
             | None => m
             end) poolsDue m) ->
        In r rs ->
        exists pool,
          alive !! r = Some pool /\ orDefault (Some (chainId pool)) 1 = c).
    { induction poolsDue as [|r0 poolsDue IH]; intros m Hm; [exact Hm |].
      cbn [fold_left]. apply IH.
      destruct (alive !! r0) as [pool |] eqn:Hr0; [| exact Hm].
      apply (addToChain_members
               (fun r c => exists pool,
                  alive !! r = Some pool
                  /\ orDefault (Some (chainId pool)) 1 = c)); eauto. }
    apply Hgen. intros c rs r [].
Qed.

End Grouping.

Section SchedulerWitnesses.
Import Scheduler.


Lemma untracked_results_ignored_witness :
  @executeForChain Examples.dueController
    (Examples.engineAnswering [Examples.strayResult]) Examples.smallNumbers
    20000 1 [0%nat] [Examples.duePool]
  = ([Examples.duePool], false).
Proof.
  apply (@untracked_results_ignored Examples.dueController
           (Examples.engineAnswering [Examples.strayResult])
           Examples.smallNumbers 20000 1 [0%nat] [Examples.duePool]
           [Examples.strayResult]).
  - reflexivity.
  - repeat constructor.
Defined.

Lemma pools_grouped_by_chain_witness :
  groupByChain [Examples.duePool; Examples.laterPool] [0%nat; 1%nat; 7%nat]
  = [(1, [0%nat]); (137, [1%nat])]
  /\ List.NoDup
       (map fst (groupByChain [Examples.duePool; Examples.laterPool]
                   [0%nat; 1%nat; 7%nat])).
Proof.
  split; [vm_compute; reflexivity |].
  apply (pools_grouped_by_chain [Examples.duePool; Examples.laterPool]
           [0%nat; 1%nat; 7%nat]).
Defined.

End SchedulerWitnesses.

(** ** The ethers adapter *)

Section EthersFacts.
Import JS Ethers.
Context `{EthersLib} `{Network}.

Lemma decodeData_sublist returnData validAddresses i :
  map datum_address (decodeData returnData validAddresses i)
    `sublist_of` validAddresses.
Proof.
  revert i. induction validAddresses as [|a rest IH]; intros i; cbn.
  - constructor.
  - destruct (decodeNumber "slot0" _); [| apply sublist_cons, IH].
    destruct (decodeNumber "liquidity" _); [| apply sublist_cons, IH].
    cbn. apply sublist_skip, IH.
Qed.

Lemma slotCalls_length validAddresses :
  length (slotCalls validAddresses) = (2 * length validAddresses)%nat.
Proof.
  unfold slotCalls. induction validAddresses as [|a rest IH]; cbn; [reflexivity |].
  rewrite IH. lia.
Qed.

(** [getBatchPoolData]: the results are for valid input addresses, in
    input order, at most one each; at most one multicall is sent, none
    when no address is valid, and it holds two calls per valid address; a
    rejected multicall gives no result. *)
Theorem batch_pool_data poolAddresses :
  let valid := List.filter isAddress poolAddresses in
  let '(results, sent) := getBatchPoolData poolAddresses in
  map datum_address results `sublist_of` valid
  /\ (valid = [] -> results = [] /\ sent = [])
  /\ (valid <> [] ->
      sent = [slotCalls valid]
      /\ length (slotCalls valid) = (2 * length valid)%nat
      /\ (aggregate (slotCalls valid) = Discovery.Throw -> results = [])).
Proof.
  intros valid. subst valid. unfold getBatchPoolData.
  destruct poolAddresses as [|a0 rest].
  - cbn. split; [constructor |]. split; [auto |]. intros Hne. now destruct Hne.
  - lazy beta iota zeta.
    remember (List.filter isAddress (a0 :: rest)) as valid eqn:Hv.
    destruct valid as [|v0 vs].
    + split; [constructor |]. split; [auto |]. intros Hne. now destruct Hne.
    + remember (v0 :: vs) as valid eqn:Hvalid.
      destruct (aggregate (slotCalls valid)) as [returnData |] eqn:Hagg.
      * split; [apply decodeData_sublist |].
        split; [rewrite Hvalid; discriminate |].
        intros _. split; [reflexivity |].
        split; [apply slotCalls_length | discriminate].
      * split; [apply sublist_nil_l |].
        split; [rewrite Hvalid; discriminate |].
        intros _. split; [reflexivity |].
        split; [apply slotCalls_length | reflexivity].
Qed.

(** The decoding loop from index [i] on, when every decoding succeeds. *)
Lemma decodeData_positions returnData validAddresses i :
  (forall j, (j < length validAddresses)%nat ->
     exists s l,
       decodeNumber "slot0" (returnData !! ((i + j) * 2)%nat)
         = Discovery.Return s
       /\ decodeNumber "liquidity" (returnData !! ((i + j) * 2 + 1)%nat)
          = Discovery.Return l) ->
  forall j a,
    validAddresses !! j = Some a ->
    exists s l,
      decodeNumber "slot0" (returnData !! ((i + j) * 2)%nat)
        = Discovery.Return s
      /\ decodeNumber "liquidity" (returnData !! ((i + j) * 2 + 1)%nat)
         = Discovery.Return l
      /\ decodeData returnData validAddresses i !! j
         = Some {| datum_address := a;
                   datum_sqrtPriceX96 := s;
                   datum_liquidity := l |}.
Proof.
  revert i. induction validAddresses as [|a0 rest IH]; intros i Hok j a Hj;
    [discriminate |].
  destruct (Hok 0%nat) as (s0 & l0 & Hs0 & Hl0); [cbn; lia |].
  rewrite Nat.add_0_r in Hs0, Hl0.
  cbn [decodeData]. rewrite Hs0, Hl0.
  destruct j as [|j].
  - injection Hj as <-. rewrite Nat.add_0_r. eauto.
  - cbn in Hj. destruct (IH (S i)) with (j := j) (a := a)
      as (s & l & Hs & Hl & Hres); [| exact Hj |].
    + intros k Hk. destruct (Hok (S k)) as (s & l & Hs & Hl); [cbn; lia |].
      rewrite <- (Nat.add_succ_comm i k) in Hs, Hl. exists s, l. split; assumption.
    + rewrite (Nat.add_succ_comm i j) in Hs, Hl. exists s, l. auto.
Qed.

(** [getBatchPoolData] when the multicall answers and every decoding
    succeeds: the result at position [j] is for the [j]-th valid address,
    its price decoded from the return data at [2 j] and its liquidity from
    those at [2 j + 1]. *)
Theorem batch_pool_data_positions poolAddresses returnData :
  let valid := List.filter isAddress poolAddresses in
  aggregate (slotCalls valid) = Discovery.Return returnData ->
  (forall j, (j < length valid)%nat ->
     exists s l,
       decodeNumber "slot0" (returnData !! (j * 2)%nat) = Discovery.Return s
       /\ decodeNumber "liquidity" (returnData !! (j * 2 + 1)%nat)
          = Discovery.Return l) ->
  forall j a,
    valid !! j = Some a ->
    exists s l,
      decodeNumber "slot0" (returnData !! (j * 2)%nat) = Discovery.Return s
      /\ decodeNumber "liquidity" (returnData !! (j * 2 + 1)%nat)
         = Discovery.Return l
      /\ (getBatchPoolData poolAddresses).1 !! j
         = Some {| datum_address := a;
                   datum_sqrtPriceX96 := s;
                   datum_liquidity := l |}.
Proof.
  intros valid Hagg Hok j a Hj.
  destruct (decodeData_positions returnData valid 0 Hok j a Hj)
    as (s & l & Hs & Hl & Hres).
  exists s, l. split; [exact Hs |]. split; [exact Hl |].
  subst valid. unfold getBatchPoolData.
  destruct poolAddresses as [|a0 rest]; [discriminate |].
  lazy beta iota zeta.
  remember (List.filter isAddress (a0 :: rest)) as valid eqn:Hv.
  destruct valid as [|v0 vs]; [discriminate |].
  remember (v0 :: vs) as valid eqn:Hvalid.
  rewrite Hagg. exact Hres.
Qed.

(** Every pool the decoding loop keeps has the stable token on one side
    and is one of the candidates. *)
Lemma decodePools_keep a returnData potentialPools i pool :
  In pool (decodePools a returnData potentialPools i) ->
  (toLowerCase (Snapshot.address (Snapshot.token0 pool))
     = toLowerCase (stableTokenAddress a)
   \/ toLowerCase (Snapshot.address (Snapshot.token1 pool))
      = toLowerCase (stableTokenAddress a))
  /\ Snapshot.reserve0 pool = 0 /\ Snapshot.reserve1 pool = 0
  /\ In (Snapshot.pool_address pool) potentialPools.
Proof.
  revert i. induction potentialPools as [|p rest IH]; intros i; cbn [decodePools];
    [intros [] |].
  assert (Hnext : In pool (decodePools a returnData rest (S i)) ->
            (toLowerCase (Snapshot.address (Snapshot.token0 pool))
               = toLowerCase (stableTokenAddress a)
             \/ toLowerCase (Snapshot.address (Snapshot.token1 pool))
                = toLowerCase (stableTokenAddress a))
            /\ Snapshot.reserve0 pool = 0 /\ Snapshot.reserve1 pool = 0
            /\ In (Snapshot.pool_address pool) (p :: rest)).
  { intros Hin. destruct (IH _ Hin) as (Hs & Hr0 & Hr1 & Hp).
    repeat split; auto. now right. }
  destruct (noData _); [exact Hnext |].
  destruct (decodeAddress "token0" _) as [t0 |]; [| exact Hnext].
  destruct (decodeAddress "token1" _) as [t1 |]; [| exact Hnext].
  destruct (decodeNumber "fee" _) as [fee |]; [| exact Hnext].
  destruct (String.eqb_spec (toLowerCase t0) (toLowerCase (stableTokenAddress a)))
    as [Ht0 | Ht0]; cbn [negb andb].
  - intros [<- | Hin]; [| now apply Hnext]. cbn. repeat split; auto.
  - destruct (String.eqb_spec (toLowerCase t1)
                (toLowerCase (stableTokenAddress a))) as [Ht1 | Ht1];
      cbn [negb]; [| exact Hnext].
    intros [<- | Hin]; [| now apply Hnext]. cbn. repeat split; auto.
Qed.

Lemma decodePools_length a returnData potentialPools i :
  (length (decodePools a returnData potentialPools i)
   <= length potentialPools)%nat.
Proof.
  revert i. induction potentialPools as [|p rest IH]; intros i;
    cbn [decodePools length]; [lia |].
  specialize (IH (S i)).
  destruct (noData _); [lia |].
  destruct (decodeAddress "token0" _); [| lia].
  destruct (decodeAddress "token1" _); [| lia].
  destruct (decodeNumber "fee" _); [| lia].
  destruct (_ && _); cbn [length]; lia.
Qed.

Lemma getTopPools_keep a limit pool :
  In pool (getTopPools a limit) ->
  (toLowerCase (Snapshot.address (Snapshot.token0 pool))
     = toLowerCase (stableTokenAddress a)
   \/ toLowerCase (Snapshot.address (Snapshot.token1 pool))
      = toLowerCase (stableTokenAddress a))
  /\ Snapshot.reserve0 pool = 0 /\ Snapshot.reserve1 pool = 0.
Proof.
  unfold getTopPools.
  destruct (fetch _) as [response |]; [| intros []].
  destruct (ok response); cbn [negb]; [| intros []].
  destruct (json response) as [data |]; [| intros []].
  destruct (json_result data) as [result |]; [| intros []].
  destruct (String.eqb _ _); cbn [negb]; [| intros []].
  destruct (aggregate _) as [returnData |]; [| intros []].
  intros Hin.
  destruct (decodePools_keep _ _ _ _ _ Hin) as (Hs & Hr0 & Hr1 & _). auto.
Qed.

Lemma getTopPools_length a limit :
  0 <= limit -> Z.of_nat (length (getTopPools a limit)) <= limit.
Proof.
  intros Hlimit. unfold getTopPools.
  destruct (fetch _) as [response |]; [| cbn; lia].
  destruct (ok response); cbn [negb]; [| cbn; lia].
  destruct (json response) as [data |]; [| cbn; lia].
  destruct (json_result data) as [result |]; [| cbn; lia].
  destruct (String.eqb _ _); cbn [negb]; [| cbn; lia].
  destruct (aggregate _) as [returnData |]; [| cbn; lia].
  pose proof (decodePools_length a returnData
                (map holder_address (slice result 0 limit)) 0) as Hlen.
  rewrite length_map in Hlen.
  rewrite slice_take_drop in Hlen |- * by lia.
  rewrite length_take in Hlen. lia.
Qed.

(** [getTopPools]: every pool it answers has the stable token as
    [token0] or [token1] (addresses compared in lower case) and zero
    reserves, and for a limit that is not negative it answers at most
    [limit] pools. *)
Theorem top_pools_hold_stable a limit :
  (forall pool,
     In pool (getTopPools a limit) ->
     (toLowerCase (Snapshot.address (Snapshot.token0 pool))
        = toLowerCase (stableTokenAddress a)
      \/ toLowerCase (Snapshot.address (Snapshot.token1 pool))
         = toLowerCase (stableTokenAddress a))
     /\ Snapshot.reserve0 pool = 0 /\ Snapshot.reserve1 pool = 0)
  /\ (0 <= limit -> Z.of_nat (length (getTopPools a limit)) <= limit).
Proof.
  split; [apply getTopPools_keep | apply getTopPools_length].
Qed.

End EthersFacts.

Section EthersSnapshot.
Import JS Snapshot.
Context `{Pricing} `{Ethers.EthersLib} `{Ethers.Network}.

(** The snapshot service over the ethers adapter: a token other than the
    stable token that has a pool is priced as that very token against the
    stable token. *)
Theorem ethers_prices_requested_token a meta pool :
  findPool (Ethers.getTopPools a 100) meta = Some pool ->
  keyOf meta <> toLowerCase (Ethers.stableTokenAddress a) ->
  exists target,
    toLowerCase target = keyOf meta
    /\ fst (priceAndLiquidity (Ethers.asChainAdapter a) meta)
       = computeSpotPrice pool target (Ethers.stableTokenAddress a).
Proof.
  intros Hfind Hnot. unfold priceAndLiquidity.
  cbn [getTopPools getStableTokenAddress Ethers.asChainAdapter
       Ethers.getStableTokenAddress].
  rewrite Hfind. unfold findPool in Hfind.
  apply find_some in Hfind as [Hin Hhas].
  destruct (getTopPools_keep a 100 pool Hin) as (Hstable & _).
  unfold hasToken in Hhas. fold (keyOf meta) in Hhas.
  apply orb_true_iff in Hhas.
  unfold Ethers.getStableTokenAddress.
  destruct (String.eqb_spec (toLowerCase (address (token0 pool)))
              (toLowerCase (Ethers.stableTokenAddress a))) as [Hs0 | Hs0];
    cbn [fst].
  - exists (address (token1 pool)). split; [| reflexivity].
    destruct Hhas as [Hm | Hm]; apply String.eqb_eq in Hm; congruence.
  - exists (address (token0 pool)). split; [| reflexivity].
    destruct Hstable as [Hs | Hs]; [contradiction |].
    destruct Hhas as [Hm | Hm]; apply String.eqb_eq in Hm; congruence.
Qed.

End EthersSnapshot.

Section EthersWitnesses.
Import JS Ethers.

Lemma batch_pool_data_witness :
  List.filter (@isAddress Examples.plainEthers)
    ["0xPoolA"; "nonsense"; "0xPoolB"] <> []
  /\ (@getBatchPoolData Examples.plainEthers Examples.twoHolderNetwork
        ["0xPoolA"; "nonsense"; "0xPoolB"]).2
     = [@slotCalls Examples.plainEthers ["0xPoolA"; "0xPoolB"]].
Proof.
  split; [vm_compute; discriminate |].
  pose proof (@batch_pool_data Examples.plainEthers Examples.twoHolderNetwork
                ["0xPoolA"; "nonsense"; "0xPoolB"]) as Hb.
  cbv zeta in Hb.
  destruct (@getBatchPoolData Examples.plainEthers Examples.twoHolderNetwork
              ["0xPoolA"; "nonsense"; "0xPoolB"]) as [results sent].
  destruct Hb as (_ & _ & Hsent).
  destruct Hsent as [-> _]; [vm_compute; discriminate | reflexivity].
Defined.

Lemma batch_pool_data_positions_witness :
  (@getBatchPoolData Examples.plainEthers Examples.twoHolderNetwork
     ["0xPoolA"; "nonsense"; "0xPoolB"]).1 !! 1%nat
  = Some {| datum_address := "0xPoolB";
            datum_sqrtPriceX96 := 3000;
            datum_liquidity := 3000 |}.
Proof.
  edestruct (@batch_pool_data_positions Examples.plainEthers
               Examples.twoHolderNetwork ["0xPoolA"; "nonsense"; "0xPoolB"]
               _ eq_refl) with (j := 1%nat) (a := "0xPoolB")
    as (s & l & Hs & Hl & Hres).
  - intros [|[|j]] Hj;
      [ eexists; eexists; split; reflexivity
      | eexists; eexists; split; reflexivity
      | exfalso; vm_compute in Hj; lia ].
  - reflexivity.
  - vm_compute in Hs, Hl. injection Hs as <-. injection Hl as <-. exact Hres.
Defined.

Lemma top_pools_hold_stable_witness :
  0 <= 100
  /\ Z.of_nat
       (length (@getTopPools Examples.plainEthers Examples.twoHolderNetwork
                  Examples.mainnetAdapter 100)) <= 100.
Proof.
  split; [lia |].
  apply (proj2 (@top_pools_hold_stable Examples.plainEthers
                  Examples.twoHolderNetwork Examples.mainnetAdapter 100)).
  lia.
Defined.

Lemma ethers_prices_requested_token_witness :
  exists target,
    toLowerCase target = Snapshot.keyOf Examples.WETH
    /\ fst (@Snapshot.priceAndLiquidity Examples.pricing
              (@asChainAdapter Examples.plainEthers Examples.twoHolderNetwork
                 Examples.mainnetAdapter) Examples.WETH)
       = @Snapshot.computeSpotPrice Examples.pricing Examples.usdcWethPool
           target (stableTokenAddress Examples.mainnetAdapter).
Proof.
  apply (@ethers_prices_requested_token Examples.pricing Examples.plainEthers
           Examples.twoHolderNetwork Examples.mainnetAdapter Examples.WETH
           Examples.usdcWethPool).
  - vm_compute. reflexivity.
  - vm_compute. discriminate.
Defined.

End EthersWitnesses.

(** ** The client: paging and search *)

Section ClientFacts.
Import JS Snapshot Client.













Ltac digit_value :=
  match goal with
  | |- context [Z.of_nat (nat_of_ascii ?c) - 48] =>
      let v := eval vm_compute in (Z.of_nat (nat_of_ascii c) - 48) in
      change (Z.of_nat (nat_of_ascii c) - 48) with v
  end.

Ltac leading_digit :=
  cbn [NilEmpty.string_of_uint Pos.of_uint_acc Pos.of_uint];
  match goal with
  | |- fold_left ?f (leadingDigits 10 (String ?c ?r)) ?a = _ =>
      change (fold_left f (leadingDigits 10 (String c r)) a)
        with (fold_left f (leadingDigits 10 r)
                (a * 10 + (Z.of_nat (nat_of_ascii c) - 48)))
  end;
  digit_value.

Lemma leadingDigits_uint_acc d acc :
  fold_left (fun a x => a * 10 + x)
    (leadingDigits 10 (NilEmpty.string_of_uint d)) (Z.pos acc)
  = Z.pos (Pos.of_uint_acc d acc).
Proof.
  revert acc. induction d; intros acc; [reflexivity | ..];
    leading_digit; rewrite <- IHd; f_equal; lia.
Qed.

Lemma leadingDigits_uint d :
  digitsValue 10 (leadingDigits 10 (NilEmpty.string_of_uint d))
  = Z.of_N (Pos.of_uint d).
Proof.
  unfold digitsValue.
  induction d; [reflexivity | ..]; leading_digit;
    [exact IHd | ..]; cbn [Z.of_N]; rewrite <- leadingDigits_uint_acc;
    f_equal.
Qed.

(** Reading back a decimal numeral that is not empty. *)
Lemma parseInt_uint d :
  d <> Decimal.Nil ->
  parseInt (Some (NilEmpty.string_of_uint d))
  = Some (1 * digitsValue 10 (leadingDigits 10 (NilEmpty.string_of_uint d))).
Proof.
  intros Hd. destruct d; [contradiction | ..]; try reflexivity.
  destruct d; reflexivity.
Qed.

Lemma parseInt_minus_uint d :
  d <> Decimal.Nil ->
  parseInt (Some (String "-" (NilEmpty.string_of_uint d)))
  = Some (-1 * digitsValue 10 (leadingDigits 10 (NilEmpty.string_of_uint d))).
Proof.
  intros Hd. destruct d; [contradiction | ..]; try reflexivity.
  destruct d; reflexivity.
Qed.

Lemma string_of_uint_nonnil d :
  d <> Decimal.Nil -> NilZero.string_of_uint d = NilEmpty.string_of_uint d.
Proof. now destruct d. Qed.

Lemma parseInt_toString n : parseInt (Some (Discovery.toString n)) = Some n.
Proof.
  unfold Discovery.toString. destruct n as [|p|p]; [reflexivity | |];
    cbn [Z.to_int NilZero.string_of_int];
    rewrite string_of_uint_nonnil by apply Unsigned.to_uint_nonnil.
  - rewrite parseInt_uint by apply Unsigned.to_uint_nonnil.
    rewrite leadingDigits_uint, DecimalPos.Unsigned.of_to. f_equal.
  - change (String _ ?s) with (String "-" s).
    rewrite parseInt_minus_uint by apply Unsigned.to_uint_nonnil.
    rewrite leadingDigits_uint, DecimalPos.Unsigned.of_to. f_equal.
Qed.


Lemma pageRequest_offset chain_ p : parseOffset (pageRequest chain_ p) = p.
Proof.
  unfold parseOffset, pageRequest. cbn [query_offset].
  rewrite parseInt_toString. unfold orDefault.
  now destruct (Z.eqb_spec p 0).
Qed.

Lemma pageRequest_limit chain_ p : parseLimit (pageRequest chain_ p) = 25.
Proof. reflexivity. Qed.

(** Paging of the hook against the route.  There is a next page exactly
    while fewer than 40 pages are loaded; its parameter is 25 times the
    number of loaded pages, and the route reads the request made for it
    as that offset with the limit 25. *)
Theorem hook_paging allPages :
  (is_Some (nextPageParam allPages) <-> (length allPages < 40)%nat)
  /\ (forall p chain_,
        nextPageParam allPages = Some p ->
        p = 25 * Z.of_nat (length allPages)
        /\ parseOffset (pageRequest chain_ p) = p
        /\ parseLimit (pageRequest chain_ p) = 25).
Proof.
  assert (Hnext : nextPageParam allPages =
                  if Z.of_nat (length allPages) * 25 <? 1000
                  then Some (Z.of_nat (length allPages) * 25) else None).
  { unfold nextPageParam. destruct (last allPages) eqn:Hlast; [reflexivity |].
    apply last_None in Hlast. now subst allPages. }
  rewrite Hnext. split.
  - destruct (Z.ltb_spec (Z.of_nat (length allPages) * 25) 1000).
    + split; [lia | eauto].
    + split; [intros [? [=]] | lia].
  - intros p chain_ Hp.
    destruct (Z.ltb_spec (Z.of_nat (length allPages) * 25) 1000);
      [| discriminate].
    injection Hp as <-. split; [lia |].
    split; [apply pageRequest_offset | apply pageRequest_limit].
Qed.


Section Paging.
Context `{Pricing} `{StaticTokens}.


(** The query function against the route, for a page parameter that is
    not negative: on a chain without adapter it throws
    [No data available for <chain>]; on a chain with an adapter it answers
    a snapshot of that chain, stamped with the time of the request, with
    at most 25 entries. *)
Theorem query_against_route svc now chain_ p :
  let serve := fun req => (getLatest svc now req).1 in
  (adapters svc !! toLowerCase chain_ = None ->
   queryFn serve chain_ p = inl (Error ("No data available for " ++ chain_)))
  /\ (forall adapter,
        adapters svc !! toLowerCase chain_ = Some adapter ->
        0 <= p ->
        exists snapshot,
          queryFn serve chain_ p = inr (SnapshotBody snapshot)
          /\ chain snapshot = getChainName adapter
          /\ snapshot_timestamp snapshot = now
          /\ (length (entries snapshot) <= 25)%nat).
Proof.
  intros serve. subst serve. unfold queryFn. split.
  - intros Hnone. rewrite getLatest_no_adapter by exact Hnone. reflexivity.
  - intros adapter Had Hp. unfold getLatest.
    rewrite pageRequest_offset, pageRequest_limit. cbn [params_chain pageRequest].
    destruct (generateSnapshot_supported svc now chain_ p 25 adapter Had)
      as [svc' ->].
    eexists. split; [reflexivity |]. cbn [chain snapshot_timestamp entries].
    split; [reflexivity |]. split; [reflexivity |].
    rewrite length_map, windowedMetadata_slice, slice_take_drop by lia.
    rewrite length_take. lia.
Qed.

End Paging.


End ClientFacts.

Section ClientWitnesses.
Import JS Snapshot Client.


Lemma hook_paging_witness :
  nextPageParam [] = Some 0
  /\ parseOffset (pageRequest "polygon" 0) = 0
  /\ parseLimit (pageRequest "polygon" 0) = 25.
Proof.
  split; [reflexivity |].
  apply (proj2 (hook_paging []) 0 "polygon" eq_refl).
Defined.

Lemma query_against_route_witness :
  exists snapshot,
    queryFn
      (fun req =>
         (@getLatest Examples.pricing Examples.staticTokens
            Examples.wiredService 1000 req).1)
      "Polygon" 0
    = inr (SnapshotBody snapshot)
    /\ chain snapshot = "polygon"
    /\ snapshot_timestamp snapshot = 1000
    /\ (length (entries snapshot) <= 25)%nat.
Proof.
  destruct (proj2 (@query_against_route Examples.pricing Examples.staticTokens
                     Examples.wiredService 1000 "Polygon" 0)
              (default Examples.twoPoolAdapter
                 (@MockAdapter Examples.staticTokens "polygon")))
    as (snapshot & Hq & Hc & Ht & Hl); [vm_compute; reflexivity | lia |].
  exists snapshot. split; [exact Hq |]. split; [| split; assumption].
  rewrite Hc. reflexivity.
Defined.

End ClientWitnesses.
